(** * EasyWriter: a typewriter animation over one DOM element

    Shallow embedding of [src/TypeWriter.ts] (class [EasyWriter]).

    Modelling choices.
    - JS numbers that the class handles ([delay], [count], [loopFrom],
      the counters, the cursor into the queue) are integer-valued; they are
      [Z] here ([NaN], the infinities and fractions are outside this type).
      The closure variable [index] of [#type] only ever counts up from
      zero, it is a [nat].
    - JS strings are [string]; [text.length] is [String.length].  Only the
      comparison with the carriage return (code 13) depends on the
      character, so the width of a code unit plays no role.  An engine
      holds no string longer than its maximum string length,
      [string_limit]; building a longer one is a [RangeError].
    - The target element is the abstraction of the component's external
      interface: a gettable and settable plain text ([innerText]) and a set
      of presentation classes ([classList]).
    - [setTimeout], [setInterval] and [clearInterval] act on an explicit
      timer table with a virtual clock; [fire] runs the callback that is
      due first, the way the browser's event loop does.
    - A method that throws leaves the fields it has already assigned
      changed: a result carries the state in both cases. *)

From stdpp Require Import base gmap sets list strings.
From Stdlib Require Import ZArith Lia String Ascii.

Local Open Scope string_scope.
Local Open Scope list_scope.
Local Open Scope Z_scope.

(** ** Data model *)

Record HTMLElement := mkElement {
  innerText : string;
  classList : gset string
}.

Record WriteInstruction := mkWrite {
  text : string;
  delay : Z
}.

Record EasyWriterConfig := mkConfig {
  element : HTMLElement;
  typeDelay : Z;
  loop : bool;
  loopFrom : Z;
  hideCursorOnEnd : bool
}.

Record EasyWriter := mkWriter {
  config : EasyWriterConfig;
  _writes : list WriteInstruction;
  _eraseNum : Z;
  _charsNum : Z;
  _typingStarted : bool;
  _currentWritesIndex : Z
}.


(** A pending timer.  A [Timeout] is the arrow function
    [() => this.#type(text)] handed to [setTimeout]; an [Interval] is the
    closure handed to [setInterval] inside [#type], together with the
    variables it captured: [text] and the mutable [index]. *)
Inductive timer :=
  | Timeout (id : nat) (due : Z) (txt : string)
  | Interval (id : nat) (due : Z) (period : Z) (txt : string) (index : nat).

(** The instance together with the scheduler it runs on. *)
Record Machine := mkMachine {
  this : EasyWriter;
  now : Z;
  nextId : nat;
  timers : list timer
}.

(** What a JS call can throw here: [new Error(message)], the [RangeError]
    of [String.prototype.repeat], the [TypeError] of a property read on
    [undefined] and the [SyntaxError] of [querySelector] on a selector
    that does not parse. *)
Inductive exn :=
  | Error (message : string)
  | RangeError
  | TypeError
  | SyntaxError.

Definition TargetNotFoundError : exn :=
  Error "EasyWriter: Could not find element".
Definition AlreadyStartedError : exn :=
  Error "EasyWriter: Cannot write after typing has already started".
Definition NoPriorWriteError : exn :=
  Error "EasyWriter: Cannot eraseLast, last element does not exist".

(** Outcome of a call on a mutable object: the object as the call left it,
    whether it returned or threw. *)
Inductive result (A : Type) :=
  | Return (a : A)
  | Throw (e : exn) (a : A).
Arguments Return {A} a.
Arguments Throw {A} e a.

Definition state_of {A} (r : result A) : A :=
  match r with Return a => a | Throw _ a => a end.

Definition bind {A} (r : result A) (f : A -> result A) : result A :=
  match r with Return a => f a | Throw e a => Throw e a end.

(** ** JS primitives *)

(** The carriage return, the erase marker. *)
Definition CR : string := String (ascii_of_nat 13) EmptyString.

Fixpoint string_repeat (s : string) (n : nat) : string :=
  match n with
  | O => EmptyString
  | S k => s +:+ string_repeat s k
  end.

(** The maximum length of a string.  The source does not fix it, the
    engine does: the value is V8's (2^29 - 24).  The theorems use it
    through its name only. *)
Definition string_limit : Z := 536870888.

(** [s] is a string the engine can hold. *)
Definition js_string (s : string) : Prop :=
  Z.of_nat (String.length s) ≤ string_limit.

(** [s.repeat(count)]: a [RangeError] for a negative count, and for a
    count that makes the result longer than the maximum string length
    (an infinite count, which [Z] leaves out, fails the same way). *)
Definition js_repeat (s : string) (count : Z) : option string :=
  if count <? 0 then None
  else if string_limit <? count * Z.of_nat (String.length s) then None
  else Some (string_repeat s (Z.to_nat count)).

(** [s.substring(a, b)] for [a <= b]. *)
Definition js_substring (s : string) (a b : nat) : string :=
  substring a (b - a) s.

(** [s.slice(0, -1)]. *)
Definition js_slice_0_m1 (s : string) : string :=
  substring 0 (String.length s - 1) s.

(** [d || 0] on a number. *)
Definition or0 (d : Z) : Z := if d =? 0 then 0 else d.

(** [a[i]]: [undefined] outside the array. *)
Definition js_index {A} (a : list A) (i : Z) : option A :=
  if 0 <=? i then a !! Z.to_nat i else None.

(** [a.slice(-1)[0]]. *)
Definition js_last {A} (a : list A) : option A := last a.

(** [classList.toggle(token, force)] and [classList.add(token)]. *)
Definition classList_toggle (token : string) (force : bool)
    (cl : gset string) : gset string :=
  if force then {[ token ]} ∪ cl else cl ∖ {[ token ]}.

Definition classList_add (token : string) (cl : gset string) : gset string :=
  {[ token ]} ∪ cl.

(** ** Field updates *)

Definition set_element (e : HTMLElement) (c : EasyWriterConfig) :=
  mkConfig e (typeDelay c) (loop c) (loopFrom c) (hideCursorOnEnd c).

Definition set_config (c : EasyWriterConfig) (w : EasyWriter) :=
  mkWriter c (_writes w) (_eraseNum w) (_charsNum w) (_typingStarted w)
    (_currentWritesIndex w).
Definition set_writes (ws : list WriteInstruction) (w : EasyWriter) :=
  mkWriter (config w) ws (_eraseNum w) (_charsNum w) (_typingStarted w)
    (_currentWritesIndex w).
Definition set_eraseNum (n : Z) (w : EasyWriter) :=
  mkWriter (config w) (_writes w) n (_charsNum w) (_typingStarted w)
    (_currentWritesIndex w).
Definition set_charsNum (n : Z) (w : EasyWriter) :=
  mkWriter (config w) (_writes w) (_eraseNum w) n (_typingStarted w)
    (_currentWritesIndex w).
Definition set_typingStarted (b : bool) (w : EasyWriter) :=
  mkWriter (config w) (_writes w) (_eraseNum w) (_charsNum w) b
    (_currentWritesIndex w).
Definition set_currentWritesIndex (i : Z) (w : EasyWriter) :=
  mkWriter (config w) (_writes w) (_eraseNum w) (_charsNum w)
    (_typingStarted w) i.

Definition the_element (w : EasyWriter) : HTMLElement := element (config w).

Definition set_innerText (s : string) (w : EasyWriter) :=
  set_config
    (set_element (mkElement s (classList (the_element w))) (config w)) w.
Definition set_classList (cl : gset string) (w : EasyWriter) :=
  set_config
    (set_element (mkElement (innerText (the_element w)) cl) (config w)) w.

Definition set_this (w : EasyWriter) (m : Machine) :=
  mkMachine w (now m) (nextId m) (timers m).
Definition set_timers (ts : list timer) (m : Machine) :=
  mkMachine (this m) (now m) (nextId m) ts.
Definition on_this (f : EasyWriter -> EasyWriter) (m : Machine) :=
  set_this (f (this m)) m.

(** ** The scheduler *)

Definition timer_id (t : timer) : nat :=
  match t with Timeout id _ _ => id | Interval id _ _ _ _ => id end.
Definition timer_due (t : timer) : Z :=
  match t with Timeout _ d _ => d | Interval _ d _ _ _ => d end.

(** [setTimeout(() => this.#type(txt), d)]; a negative delay counts as 0. *)
Definition setTimeout (txt : string) (d : Z) (m : Machine) : Machine :=
  mkMachine (this m) (now m) (S (nextId m))
    (timers m ++ [Timeout (nextId m) (now m + Z.max 0 d) txt]).

(** [setInterval(<tick closure over txt, index>, p)]. *)
Definition setInterval (txt : string) (index : nat) (p : Z) (m : Machine)
    : Machine :=
  mkMachine (this m) (now m) (S (nextId m))
    (timers m ++ [Interval (nextId m) (now m + Z.max 0 p) (Z.max 0 p) txt index]).

Definition remove_timer (id : nat) (m : Machine) : Machine :=
  set_timers (filter (fun t => timer_id t ≠ id) (timers m)) m.

Definition clearInterval := remove_timer.

(** After an interval fired it is due again one period later. *)
Definition rearm_timer (id : nat) (t : timer) (at_ : Z) : timer :=
  match t with
  | Interval i _ p txt index =>
      if (i =? id)%nat then Interval i (at_ + p) p txt index else t
  | _ => t
  end.
Definition rearm (id : nat) (m : Machine) : Machine :=
  set_timers (map (fun t => rearm_timer id t (now m)) (timers m)) m.

(** Assignment to the captured variable [index] of the closure [id]. *)
Definition set_index_timer (id : nat) (i : nat) (t : timer) : timer :=
  match t with
  | Interval i0 d p txt _ =>
      if (i0 =? id)%nat then Interval i0 d p txt i else t
  | _ => t
  end.
Definition set_index (id : nat) (i : nat) (m : Machine) : Machine :=
  set_timers (map (set_index_timer id i) (timers m)) m.

(** The timer that is due first; among equals, the one set first. *)
Fixpoint earliest (ts : list timer) : option timer :=
  match ts with
  | [] => None
  | t :: ts' =>
      match earliest ts' with
      | Some u => if timer_due u <? timer_due t then Some u else Some t
      | None => Some t
      end
  end.

Definition advance (due : Z) (m : Machine) : Machine :=
  mkMachine (this m) (Z.max (now m) due) (nextId m) (timers m).

(** ** The class *)

(** The defaults of the [config] field, over the resolved element. *)
Definition default_config (e : HTMLElement) : EasyWriterConfig :=
  mkConfig e 150 false 0 false.

(** The [element] key of the constructor's argument: a selector or an
    element (the type of the key admits nothing else). *)
Inductive element_arg :=
  | Selector (s : string)
  | Element (e : HTMLElement).

(** What [document.querySelector] gives for a selector: it throws when
    the selector does not parse, and otherwise returns [null] or the
    first matching element, which need not be an [HTMLElement] (an
    [svg] element is none). *)
Inductive query_result :=
  | InvalidSelector
  | NoMatch
  | Match (e : HTMLElement)
  | MatchOtherElement.

Record PartialConfig := mkPartial {
  p_element : option element_arg;
  p_typeDelay : option Z;
  p_loop : option bool;
  p_loopFrom : option Z;
  p_hideCursorOnEnd : option bool
}.

(** [constructor(config)], over [document.querySelector]: the spread of
    the defaults and the given keys, the resolution of a selector, and
    the [instanceof HTMLElement] test on what was resolved. *)
Definition constructor (querySelector : string -> query_result)
    (c : PartialConfig) : exn + EasyWriter :=
  let arg := default (Selector ".easy-writer") (p_element c) in
  let fresh (e : HTMLElement) :=
    mkWriter
      (mkConfig e
         (default 150 (p_typeDelay c))
         (default false (p_loop c))
         (default 0 (p_loopFrom c))
         (default false (p_hideCursorOnEnd c)))
      [] 0 0 false 0 in
  match arg with
  | Selector s =>
      match querySelector s with
      | InvalidSelector => inl SyntaxError
      | NoMatch => inl TargetNotFoundError
      | MatchOtherElement => inl TargetNotFoundError
      | Match e => inr (fresh e)
      end
  | Element e => inr (fresh e)
  end.

(** The instance right after construction with a resolved configuration. *)
Definition new_writer (c : EasyWriterConfig) : EasyWriter :=
  mkWriter c [] 0 0 false 0.

Definition boot (w : EasyWriter) : Machine := mkMachine w 0 0 [].

(** [write(text, delay)] *)
Definition write (txt : string) (d : Z) (w : EasyWriter) : result EasyWriter :=
  if _typingStarted w then Throw AlreadyStartedError w
  else
    let w1 := set_charsNum (_charsNum w + Z.of_nat (String.length txt)) w in
    Return (set_writes (_writes w1 ++ [mkWrite txt d]) w1).

(** [erase(count, delay)]: both counters are assigned before the argument
    of [write] is evaluated and before [write] is entered. *)
Definition erase (count : Z) (d : Z) (w : EasyWriter) : result EasyWriter :=
  let w1 := set_eraseNum (_eraseNum w + count) w in
  let w2 := set_charsNum (_charsNum w1 - count) w1 in
  match js_repeat CR count with
  | None => Throw RangeError w2
  | Some txt => write txt d w2
  end.

(** [eraseLast(delay)] *)
Definition eraseLast (d : Z) (w : EasyWriter) : result EasyWriter :=
  match js_last (_writes w) with
  | None => Throw NoPriorWriteError w
  | Some last =>
      let count := Z.of_nat (String.length (text last)) in
      erase count d w
  end.


(** [start()]: reading [firstWriteEl.delay] throws when the cursor points
    outside the queue. *)
Definition start (m : Machine) : result Machine :=
  let m1 := on_this (set_typingStarted true) m in
  match _writes (this m1) with
  | [] => Return m1
  | _ =>
      match js_index (_writes (this m1)) (_currentWritesIndex (this m1)) with
      | None => Throw TypeError m1
      | Some firstWriteEl =>
          Return (setTimeout (text firstWriteEl) (or0 (delay firstWriteEl)) m1)
      end
  end.

(** [#toggleCursor(show)] and [hideCursor()] *)
Definition toggleCursor (show : bool) (w : EasyWriter) : EasyWriter :=
  set_classList
    (classList_toggle "typing" (negb show) (classList (the_element w))) w.

Definition hideCursor (w : EasyWriter) : EasyWriter :=
  set_classList (classList_add "hide-cursor" (classList (the_element w))) w.

(** [#type(text)]: the body up to and including [setInterval]. *)
Definition type (txt : string) (m : Machine) : Machine :=
  let m1 := on_this (toggleCursor false) m in
  setInterval txt 0 (typeDelay (config (this m1))) m1.

(** One run of the closure that [#type] hands to [setInterval]; [id] is
    the captured [intervalId]. *)
Definition tick (id : nat) (txt : string) (index : nat) (m : Machine)
    : result Machine :=
  if (index =? String.length txt)%nat then
    let m1 := on_this (toggleCursor true) m in
    let m2 := clearInterval id m1 in
    let m3 :=
      on_this (fun w => set_currentWritesIndex (_currentWritesIndex w + 1) w)
        m2 in
    match js_index (_writes (this m3)) (_currentWritesIndex (this m3)) with
    | Some nextWrite =>
        Return (setTimeout (text nextWrite) (or0 (delay nextWrite)) m3)
    | None =>
        if loop (config (this m3)) then
          start
            (on_this (set_currentWritesIndex (loopFrom (config (this m3))))
               m3)
        else if hideCursorOnEnd (config (this m3)) then
          Return (on_this hideCursor m3)
        else Return m3
    end
  else
    let char := js_substring txt index (index + 1) in
    let m1 := set_index id (index + 1) m in
    if String.eqb char CR then
      Return
        (on_this
           (fun w => set_innerText (js_slice_0_m1 (innerText (the_element w))) w)
           m1)
    else
      Return
        (on_this
           (fun w => set_innerText (innerText (the_element w) +:+ char) w) m1).

(** One turn of the event loop: the clock moves to the timer that is due
    first and its callback runs.  [None]: nothing is pending. *)
Definition fire (m : Machine) : option (result Machine) :=
  match earliest (timers m) with
  | None => None
  | Some (Timeout id due txt) =>
      Some (Return (type txt (remove_timer id (advance due m))))
  | Some (Interval id due _ txt index) =>
      Some (tick id txt index (rearm id (advance due m)))
  end.

(** [n] turns of the event loop, up to the first uncaught exception. *)
Fixpoint run (n : nat) (m : Machine) : result Machine :=
  match n with
  | O => Return m
  | S k =>
      match fire m with
      | None => Return m
      | Some (Return m') => run k m'
      | Some (Throw e m') => Throw e m'
      end
  end.

(** ** Chains of calls made while the queue is being built

    A fluent chain [w.write(..).erase(..)...]: the chain stops at the
    first call that throws.  [eraseLast] and [eraseAll] enter the queue
    through [erase], so a chain of [write] and [erase] calls reaches every
    state that the building phase can reach. *)
Inductive call :=
  | Write (txt : string) (d : Z)
  | Erase (count : Z) (d : Z).

Definition do_call (c : call) (w : EasyWriter) : result EasyWriter :=
  match c with
  | Write txt d => write txt d w
  | Erase count d => erase count d w
  end.

Fixpoint do_calls (cs : list call) (w : EasyWriter) : result EasyWriter :=
  match cs with
  | [] => Return w
  | c :: cs' => bind (do_call c w) (do_calls cs')
  end.

(** Sum of the lengths of the texts passed to [write]. *)
Fixpoint written (cs : list call) : Z :=
  match cs with
  | [] => 0
  | Write txt _ :: cs' => Z.of_nat (String.length txt) + written cs'
  | Erase _ _ :: cs' => written cs'
  end.

(** Sum of the counts passed to [erase]. *)
Fixpoint erased (cs : list call) : Z :=
  match cs with
  | [] => 0
  | Write _ _ :: cs' => erased cs'
  | Erase count _ :: cs' => count + erased cs'
  end.

(** The instruction a call appends to the queue when it returns. *)
Definition instruction_of (c : call) : WriteInstruction :=
  match c with
  | Write txt d => mkWrite txt d
  | Erase count d => mkWrite (string_repeat CR (Z.to_nat count)) d
  end.

(** Every count passed to [erase] is one that [repeat] accepts. *)
Definition counts_in_range (cs : list call) : bool :=
  forallb
    (fun c =>
       match c with
       | Write _ _ => true
       | Erase n _ => (0 <=? n) && (n <=? string_limit)
       end) cs.

(** The text [txt] is made of exactly [n] erase markers. *)
Definition erase_markers (n : Z) (txt : string) : Prop :=
  Z.of_nat (String.length txt) = n
  ∧ ∀ k c, get k txt = Some c → c = ascii_of_nat 13.

(** [r] is a call that returned after appending, to the queue of [w], an
    erase instruction of [n] erase markers with delay [d]. *)
Definition queues_erase (r : result EasyWriter) (w : EasyWriter) (n d : Z)
    : Prop :=
  ∃ w' txt, r = Return w'
            ∧ _writes w' = _writes w ++ [mkWrite txt d]
            ∧ erase_markers n txt.

Definition raises {A} (e : exn) (r : result A) : Prop :=
  ∃ a, r = Throw e a.

(** Start the scheduler on what a chain built, as [chain.start()] does. *)
Definition launch (r : result EasyWriter) : result Machine :=
  match r with
  | Return w => start (boot w)
  | Throw e w => Throw e (boot w)
  end.


(** A configuration and elements used in the examples. *)
Definition blank : HTMLElement := mkElement "" ∅.
Definition seeded (s : string) : HTMLElement := mkElement s ∅.
Definition plain (e : HTMLElement) : EasyWriterConfig := default_config e.

(** ** Playback of one instruction, in closed form *)

(** What one tick does to the visible text [v] for the character [c]. *)
Definition process_char (c : ascii) (v : string) : string :=
  if Ascii.eqb c (ascii_of_nat 13) then js_slice_0_m1 v
  else v +:+ String c "".

(** The visible text after the characters of [s] were processed in order. *)
Fixpoint play (s : string) (v : string) : string :=
  match s with
  | EmptyString => v
  | String c s' => play s' (process_char c v)
  end.

(** The machine [k] ticks into the instruction [txt], when [m] had the
    call [#type(txt)] as its only pending timer, due at [due]. *)
Definition typing_state (m : Machine) (due : Z) (txt : string) (k : nat)
    : Machine :=
  let p := Z.max 0 (typeDelay (config (this m))) in
  let t0 := Z.max (now m) due in
  mkMachine
    (set_innerText
       (play (substring 0 k txt) (innerText (the_element (this m))))
       (toggleCursor false (this m)))
    (t0 + Z.of_nat k * p)
    (S (nextId m))
    [Interval (nextId m) (t0 + (Z.of_nat k + 1) * p) p txt k].

(** The clock and the visible text after each of the first [n] turns. *)
Fixpoint timed_trace (n : nat) (m : Machine) : list (Z * string) :=
  match n with
  | O => []
  | S k =>
      match fire m with
      | Some (Return m') =>
          (now m', innerText (the_element (this m'))) :: timed_trace k m'
      | _ => []
      end
  end.

(** The examples of the specification: one instruction, [typeDelay] 10. *)
Definition typing_Hi : result Machine :=
  launch (do_calls [Write "Hi" 0]
            (new_writer (mkConfig blank 10 false 0 false))).

Definition erasing_Hi : result Machine :=
  launch (do_calls [Erase 2 0]
            (new_writer (mkConfig (seeded "Hi") 10 false 0 false))).

(** Looping from an index past the end of the queue. *)
Definition looping_from_1_of_1 : result Machine :=
  launch (do_calls [Write "a" 0]
            (new_writer (mkConfig blank 150 true 1 false))).

Definition looping_from_2_of_2 : result Machine :=
  launch (do_calls [Write "a" 0; Write "b" 0]
            (new_writer (mkConfig blank 150 true 2 false))).

(** The loop, when it is on, restarts at an instruction of the queue. *)
Definition loop_ok (w : EasyWriter) : Prop :=
  loop (config w) = false
  ∨ 0 ≤ loopFrom (config w) < Z.of_nat (List.length (_writes w)).

Definition looping (w : EasyWriter) : Prop :=
  loop (config w) = true
  ∧ 0 ≤ loopFrom (config w) < Z.of_nat (List.length (_writes w)).

(** Playback changes neither the queue nor the loop configuration. *)
Definition same_program (w w' : EasyWriter) : Prop :=
  loop (config w') = loop (config w)
  ∧ loopFrom (config w') = loopFrom (config w)
  ∧ _writes w' = _writes w.

(** ** Playback of the whole queue, in closed form *)

(** The instance once the instruction [txt] has been played and its last
    tick has moved the cursor on. *)
Definition after_instruction (txt : string) (w : EasyWriter) : EasyWriter :=
  set_currentWritesIndex (_currentWritesIndex w + 1)
    (toggleCursor true
       (set_innerText (play txt (innerText (the_element w)))
          (toggleCursor false w))).

(** ... and once the instructions [q] have been played one after the
    other. *)
Definition play_queue (q : list WriteInstruction) (w : EasyWriter)
    : EasyWriter :=
  foldl (fun w i => after_instruction (text i) w) w q.

(** What the last tick of the last instruction does when [loop] is off. *)
Definition end_of_queue (w : EasyWriter) : EasyWriter :=
  if hideCursorOnEnd (config w) then hideCursor w else w.

(** The texts of the instructions [q], in order, as one string. *)
Definition queue_text (q : list WriteInstruction) : string :=
  foldr (fun i s => text i +:+ s) "" q.

(** Turns of the event loop that [q] takes: per instruction the timeout,
    one tick per character and the last tick. *)
Definition turns (q : list WriteInstruction) : nat :=
  foldr (fun i n => (String.length (text i) + 2 + n)%nat) 0%nat q.

(** Time spent on ticks, and time spent waiting before instructions. *)
Definition typing_time (p : Z) (q : list WriteInstruction) : Z :=
  foldr
    (fun i t => (Z.of_nat (String.length (text i)) + 1) * Z.max 0 p + t) 0 q.

Definition waiting_time (q : list WriteInstruction) : Z :=
  foldr (fun i t => Z.max 0 (or0 (delay i)) + t) 0 q.

(** The text holds no erase marker. *)
Fixpoint no_CR (s : string) : bool :=
  match s with
  | EmptyString => true
  | String c s' => negb (Ascii.eqb c (ascii_of_nat 13)) && no_CR s'
  end.


(** What playback leaves alone: the queue, the counters, the started
    flag and every setting of the configuration but the element. *)
Definition playback_keeps (w w' : EasyWriter) : Prop :=
  _writes w' = _writes w
  ∧ _eraseNum w' = _eraseNum w
  ∧ _charsNum w' = _charsNum w
  ∧ typeDelay (config w') = typeDelay (config w)
  ∧ loop (config w') = loop (config w)
  ∧ loopFrom (config w') = loopFrom (config w)
  ∧ hideCursorOnEnd (config w') = hideCursorOnEnd (config w)
  ∧ (_typingStarted w = true → _typingStarted w' = true).

(** ** The claims of the specification that the code does not meet, as
    they are worded *)



(** C6 as it is worded, at a state [w]. *)
Definition eraseLast_queues_the_last_length (w : EasyWriter) (d : Z) : Prop :=
  (raises NoPriorWriteError (eraseLast d w) ↔ _writes w = [])
  ∧ ∀ ws last,
      _writes w = ws ++ [last] →
      queues_erase (eraseLast d w) w
        (Z.of_nat (String.length (text last))) d.



(** C8 as it is worded: the class [typing] is off at every tick of the
    instruction [txt] that [m] is about to play, and on again once the
    instruction has ended. *)
Definition typing_class_off_while_animating (m : Machine) (txt : string)
    : Prop :=
  (∀ k mk, (k ≤ String.length txt)%nat → run (S k) m = Return mk →
           "typing" ∉ classList (the_element (this mk)))
  ∧ (∀ mf, run (S (S (String.length txt))) m = Return mf →
           "typing" ∈ classList (the_element (this mf))).

(** ** Facts on the string primitives *)

Section Strings.

Implicit Types (s v : string) (c : ascii) (k n : nat).

Lemma append_cons c s v : String c s +:+ v = String c (s +:+ v).
Proof. reflexivity. Qed.

Lemma length_snoc s c : String.length (s +:+ String c "") = S (String.length s).
Proof.
  induction s as [|a s IH]; [done|].
  rewrite append_cons. simpl. by rewrite IH.
Qed.

Lemma get_Some_lt s : ∀ k, (k < String.length s)%nat → ∃ c, get k s = Some c.
Proof.
  induction s as [|a s IH]; intros k Hk; simpl in *; [lia|].
  destruct k as [|k]; [eauto|]. apply IH. lia.
Qed.

Lemma get_Some_length s : ∀ k c, get k s = Some c → (k < String.length s)%nat.
Proof.
  induction s as [|a s IH]; intros k c Hk; simpl in *; [discriminate|].
  destruct k as [|k]; [lia|]. apply IH in Hk. lia.
Qed.

Lemma substring_one s : ∀ k c, get k s = Some c → substring k 1 s = String c "".
Proof.
  induction s as [|a s IH]; intros k c Hk; simpl in *; [discriminate|].
  destruct k as [|k].
  - injection Hk as ->. by destruct s.
  - by apply IH.
Qed.

Lemma js_substring_char s k c :
  get k s = Some c → js_substring s k (k + 1) = String c "".
Proof.
  intros Hk. unfold js_substring.
  replace (k + 1 - k)%nat with 1%nat by lia. by apply substring_one.
Qed.

Lemma length_prefix s : ∀ n,
  (n ≤ String.length s)%nat → String.length (substring 0 n s) = n.
Proof.
  induction s as [|a s IH]; intros n Hn; simpl in *.
  - by replace n with 0%nat by lia.
  - destruct n as [|n]; [done|]. simpl. rewrite IH; lia.
Qed.

Lemma prefix_all s : substring 0 (String.length s) s = s.
Proof. induction s as [|a s IH]; simpl; [done|]. by rewrite IH. Qed.

Lemma prefix_snoc s : ∀ k c,
  get k s = Some c → substring 0 (S k) s = substring 0 k s +:+ String c "".
Proof.
  induction s as [|a s IH]; intros k c Hk; simpl in *; [discriminate|].
  destruct k as [|k].
  - injection Hk as ->. by destruct s.
  - rewrite (IH k c Hk). by rewrite append_cons.
Qed.

Lemma prefix_prefix s : ∀ n m,
  (m ≤ n)%nat → substring 0 m (substring 0 n s) = substring 0 m s.
Proof.
  induction s as [|a s IH]; intros n m Hm; simpl.
  - destruct n, m; done.
  - destruct n as [|n]; [by replace m with 0%nat by lia|].
    destruct m as [|m]; [done|]. simpl. rewrite IH; [done|lia].
Qed.

(** [slice(0, -1)] removes exactly the trailing character. *)
Lemma slice_snoc v c : js_slice_0_m1 (v +:+ String c "") = v.
Proof.
  unfold js_slice_0_m1. rewrite length_snoc.
  replace (S (String.length v) - 1)%nat with (String.length v) by lia.
  induction v as [|a v IH]; [done|].
  rewrite append_cons. simpl. by rewrite IH.
Qed.

Lemma length_string_repeat_CR n : String.length (string_repeat CR n) = n.
Proof.
  induction n as [|n IH]; [done|].
  change (string_repeat CR (S n))
    with (String (ascii_of_nat 13) (string_repeat CR n)).
  simpl. by rewrite IH.
Qed.

Lemma js_repeat_CR (count : Z) :
  0 ≤ count ≤ string_limit →
  js_repeat CR count = Some (string_repeat CR (Z.to_nat count)).
Proof.
  intros [H0 H1]. unfold js_repeat.
  rewrite (proj2 (Z.ltb_ge _ _) H0).
  change (Z.of_nat (String.length CR)) with 1. rewrite Z.mul_1_r.
  by rewrite (proj2 (Z.ltb_ge _ _) H1).
Qed.

Lemma js_repeat_neg s (count : Z) : count < 0 → js_repeat s count = None.
Proof. intros H. unfold js_repeat. by rewrite (proj2 (Z.ltb_lt _ _) H). Qed.

Lemma js_repeat_CR_too_long (count : Z) :
  string_limit < count → js_repeat CR count = None.
Proof.
  intros H. unfold js_repeat. destruct (count <? 0); [done|].
  change (Z.of_nat (String.length CR)) with 1. rewrite Z.mul_1_r.
  by rewrite (proj2 (Z.ltb_lt _ _) H).
Qed.

Lemma string_repeat_CR_markers n :
  erase_markers (Z.of_nat n) (string_repeat CR n).
Proof.
  split; [by rewrite length_string_repeat_CR|].
  induction n as [|n IH]; intros k c Hk; [by destruct k|].
  change (string_repeat CR (S n))
    with (String (ascii_of_nat 13) (string_repeat CR n)) in Hk.
  destruct k as [|k]; [by injection Hk as <-|]. by apply (IH k).
Qed.

Lemma eqb_char_CR c :
  String.eqb (String c "") CR = Ascii.eqb c (ascii_of_nat 13).
Proof. unfold CR. simpl. by destruct (Ascii.eqb c _). Qed.

End Strings.

(** ** The building phase: [write], [erase], [eraseLast], [eraseAll] *)

(** The constructor returns exactly when an [HTMLElement] is resolved,
    and then with an empty queue and both counters at zero. *)
Lemma constructor_outcome querySelector c :
  (∃ e, constructor querySelector c = inl e)
  ∨ ∃ cfg, constructor querySelector c = inr (new_writer cfg).
Proof.
  unfold constructor.
  destruct (default _ (p_element c)) as [sel|e];
    [destruct (querySelector sel)|]; eauto.
Qed.

Lemma write_building txt d w :
  _typingStarted w = false →
  write txt d w =
    Return (mkWriter (config w) (_writes w ++ [mkWrite txt d]) (_eraseNum w)
              (_charsNum w + Z.of_nat (String.length txt)) false
              (_currentWritesIndex w)).
Proof. intros H. unfold write. rewrite H. destruct w; simpl in *. by subst. Qed.

Lemma write_started txt d w :
  _typingStarted w = true → write txt d w = Throw AlreadyStartedError w.
Proof. intros H. unfold write. by rewrite H. Qed.

(** A returning [erase] gives back to [_charsNum], through [write], the
    count it took from it. *)
Lemma erase_building count d w :
  _typingStarted w = false → 0 ≤ count ≤ string_limit →
  erase count d w =
    Return (mkWriter (config w)
              (_writes w ++ [mkWrite (string_repeat CR (Z.to_nat count)) d])
              (_eraseNum w + count) (_charsNum w) false
              (_currentWritesIndex w)).
Proof.
  intros H Hc. unfold erase. rewrite js_repeat_CR by done.
  rewrite write_building by done. simpl.
  rewrite length_string_repeat_CR, Z2Nat.id by lia.
  do 2 f_equal. lia.
Qed.

(** A count that [repeat] refuses: the counters have moved, nothing is
    queued. *)
Lemma erase_out_of_range count d w :
  count < 0 ∨ string_limit < count →
  erase count d w =
    Throw RangeError
      (set_charsNum (_charsNum w - count) (set_eraseNum (_eraseNum w + count) w)).
Proof.
  intros [Hc|Hc]; unfold erase;
    [by rewrite js_repeat_neg|by rewrite js_repeat_CR_too_long].
Qed.


Lemma erase_started count d w :
  _typingStarted w = true → 0 ≤ count ≤ string_limit →
  erase count d w =
    Throw AlreadyStartedError
      (set_charsNum (_charsNum w - count) (set_eraseNum (_eraseNum w + count) w)).
Proof.
  intros H Hc. unfold erase. rewrite js_repeat_CR by done.
  by rewrite write_started.
Qed.


Lemma do_calls_building cs : ∀ w,
  _typingStarted w = false → counts_in_range cs = true →
  do_calls cs w =
    Return (mkWriter (config w) (_writes w ++ map instruction_of cs)
              (_eraseNum w + erased cs) (_charsNum w + written cs) false
              (_currentWritesIndex w)).
Proof.
  induction cs as [|c cs IH]; intros w Hw Hcs.
  - simpl. rewrite app_nil_r, !Z.add_0_r. destruct w; simpl in *. by subst.
  - simpl in Hcs. apply andb_true_iff in Hcs as [Hc Hcs].
    destruct c as [txt d|count d]; simpl.
    + rewrite write_building by done. simpl. rewrite IH by done. simpl.
      rewrite <- app_assoc. simpl. do 2 f_equal. lia.
    + apply andb_true_iff in Hc as [H0%Z.leb_le H1%Z.leb_le].
      rewrite erase_building by done. simpl.
      rewrite IH by done. simpl.
      rewrite <- app_assoc. simpl. do 2 f_equal. lia.
Qed.

(** A chain that returned passed only counts that [repeat] accepts. *)
Lemma do_calls_returns_in_range cs : ∀ w w',
  _typingStarted w = false → do_calls cs w = Return w' →
  counts_in_range cs = true.
Proof.
  induction cs as [|c cs IH]; intros w w' Hw Hr; [done|].
  destruct c as [txt d|count d]; simpl in *.
  - rewrite write_building in Hr by done. by eapply IH; [|exact Hr].
  - destruct (Z.leb_spec 0 count) as [H0|H0];
      [|by rewrite erase_out_of_range in Hr by (by left)].
    destruct (Z.leb_spec count string_limit) as [H1|H1];
      [|by rewrite erase_out_of_range in Hr by (by right)].
    rewrite erase_building in Hr by done. by eapply IH; [|exact Hr].
Qed.







(** C6, counterexample: after [write("abc")] and [start()] the most
    recent instruction has a text of length 3, but [eraseLast] raises the
    already-started error and queues nothing. *)
Lemma eraseLast_after_start_queues_nothing :
  ∃ m, launch (do_calls [Write "abc" 0] (new_writer (plain blank))) = Return m
       ∧ eraseLast 0 (this m)
         = Throw AlreadyStartedError
             (set_charsNum (_charsNum (this m) - 3)
                (set_eraseNum (_eraseNum (this m) + 3) (this m)))
       ∧ ¬ eraseLast_queues_the_last_length (this m) 0.
Proof.
  eexists. split; [reflexivity|]. split; [reflexivity|].
  intros [_ H].
  destruct (H [] (mkWrite "abc" 0) eq_refl) as (w' & txt & Hr & _).
  vm_compute in Hr. discriminate Hr.
Qed.

(** C6, amended: [eraseLast(delay)] raises the no-prior-write error
    exactly when the queue is empty; before [start], when the most recent
    instruction of the queue has a text of length N (a string the engine
    holds, so N is at most the maximum string length), it queues an erase
    instruction of exactly N erase markers; hence a second [eraseLast]
    right after queues as many markers as the erase instruction that the
    first one queued has characters, whatever was written before.  After
    [start], on a non-empty queue, it raises the already-started error
    and leaves the queue as it is. *)
Theorem eraseLast_erases_last_instruction (w : EasyWriter) (d d' : Z) :
  (raises NoPriorWriteError (eraseLast d w) ↔ _writes w = [])
  ∧ (∀ ws last,
       _writes w = ws ++ [last] → js_string (text last) →
       (_typingStarted w = false →
        queues_erase (eraseLast d w) w
          (Z.of_nat (String.length (text last))) d
        ∧ ∃ w1 w2 synthetic again,
            eraseLast d w = Return w1
            ∧ _writes w1 = _writes w ++ [synthetic]
            ∧ erase_markers (Z.of_nat (String.length (text last)))
                (text synthetic)
            ∧ eraseLast d' w1 = Return w2
            ∧ _writes w2 = _writes w ++ [synthetic; again]
            ∧ delay again = d'
            ∧ erase_markers (Z.of_nat (String.length (text synthetic)))
                (text again))
       ∧ (_typingStarted w = true →
          raises AlreadyStartedError (eraseLast d w)
          ∧ _writes (state_of (eraseLast d w)) = _writes w)).
Proof.
  split.
  - unfold eraseLast, js_last, raises. split.
    + intros [w' Hr]. destruct (last (_writes w)) as [l|] eqn:Hl;
        [|by apply last_None].
      exfalso. revert Hr. unfold erase.
      destruct (js_repeat CR _); [|discriminate].
      unfold write. by destruct (_typingStarted _).
    + intros ->. simpl. by eexists.
  - intros ws l Hws Hjs. unfold js_string in Hjs.
    assert (Hd : ∀ d0, eraseLast d0 w =
              erase (Z.of_nat (String.length (text l))) d0 w).
    { intros d0. unfold eraseLast, js_last. by rewrite Hws, last_snoc. }
    split.
    + intros Hw. rewrite Hd, erase_building by (done || lia).
      rewrite Nat2Z.id. split.
      * eexists _, _. split; [done|]. split; [done|].
        apply string_repeat_CR_markers.
      * eexists _, _, _, _. split; [done|]. split; [done|].
        split; [apply string_repeat_CR_markers|].
        unfold eraseLast, js_last. simpl. rewrite last_snoc. simpl.
        rewrite length_string_repeat_CR.
        rewrite erase_building by (done || lia). simpl.
        split; [done|]. split; [by rewrite <- app_assoc|].
        split; [done|]. simpl. rewrite Nat2Z.id.
        apply string_repeat_CR_markers.
    + intros Hw. rewrite Hd, erase_started by (done || lia).
      split; [by eexists|done].
Qed.

Lemma eraseLast_erases_last_instruction_witness :
  ∃ w, do_calls [Write "ab" 0; Write "cde" 0] (new_writer (plain blank))
         = Return w
       ∧ queues_erase (eraseLast 5 w) w 3 5
       ∧ ∃ w1 w2 synthetic again,
           eraseLast 5 w = Return w1
           ∧ _writes w1 = _writes w ++ [synthetic]
           ∧ erase_markers 3 (text synthetic)
           ∧ eraseLast 9 w1 = Return w2
           ∧ _writes w2 = _writes w ++ [synthetic; again]
           ∧ delay again = 9
           ∧ erase_markers (Z.of_nat (String.length (text synthetic)))
               (text again).
Proof.
  pose (w := state_of (do_calls [Write "ab" 0; Write "cde" 0]
                         (new_writer (plain blank)))).
  exists w. split; [reflexivity|].
  apply (proj1 (proj2 (eraseLast_erases_last_instruction w 5 9)
                  [mkWrite "ab" 0] (mkWrite "cde" 0) eq_refl
                  ltac:(unfold js_string, string_limit; simpl; lia))).
  reflexivity.
Defined.

(** ** After [start]: the queue is frozen *)





Lemma start_flag m : _typingStarted (this (state_of (start m))) = true.
Proof.
  unfold start. destruct (_writes _); [done|]. by destruct (js_index _ _).
Qed.

Lemma tick_flag id txt index m :
  _typingStarted (this m) = true →
  _typingStarted (this (state_of (tick id txt index m))) = true.
Proof.
  intros H. unfold tick. destruct (index =? String.length txt)%nat.
  - destruct (js_index _ _); [done|].
    destruct (loop _); [apply start_flag|]. by destruct (hideCursorOnEnd _).
  - by destruct (String.eqb _ _).
Qed.

Lemma fire_flag m r :
  _typingStarted (this m) = true → fire m = Some r →
  _typingStarted (this (state_of r)) = true.
Proof.
  intros H. unfold fire. destruct (earliest _) as [[id due txt|id due p txt k]|].
  - by intros [= <-].
  - intros [= <-]. by apply tick_flag.
  - done.
Qed.









(** ** The event loop on one instruction *)

Lemma play_snoc s : ∀ v c,
  play (s +:+ String c "") v = process_char c (play s v).
Proof.
  induction s as [|a s IH]; intros v c; [done|].
  rewrite append_cons. simpl. apply IH.
Qed.

Lemma play_prefix_S txt k c v :
  get k txt = Some c →
  play (substring 0 (S k) txt) v = process_char c (play (substring 0 k txt) v).
Proof. intros H. by rewrite (prefix_snoc _ _ _ H), play_snoc. Qed.

Lemma run_snoc n : ∀ m m',
  run n m = Return m' →
  run (S n) m = match fire m' with Some r => r | None => Return m' end.
Proof.
  induction n as [|n IH]; intros m m' H.
  - injection H as ->. simpl. by destruct (fire m') as [[?|? ?]|].
  - change (run (S n) m) with
      (match fire m with
       | None => Return m
       | Some (Return m1) => run n m1
       | Some (Throw e m1) => Throw e m1
       end) in H.
    change (run (S (S n)) m) with
      (match fire m with
       | None => Return m
       | Some (Return m1) => run (S n) m1
       | Some (Throw e m1) => Throw e m1
       end).
    destruct (fire m) as [[m1|e m1]|] eqn:Hf.
    + by apply IH.
    + discriminate H.
    + injection H as <-. by rewrite Hf.
Qed.

(** The pending [#type(txt)] fires: the cursor class is forced on and the
    interval is set at the configured delay. *)
Lemma fire_timeout m id due txt :
  timers m = [Timeout id due txt] →
  fire m = Some (Return (typing_state m due txt 0)).
Proof.
  intros Ht. unfold fire. rewrite Ht. simpl. do 2 f_equal.
  unfold type, typing_state, remove_timer, advance, setInterval, on_this,
    set_this, set_timers. simpl. rewrite Ht. simpl.
  rewrite filter_cons_False by (simpl; intros H; by apply H).
  rewrite filter_nil. simpl.
  replace (substring 0 0 txt) with "" by (by destruct txt). simpl.
  f_equal; [lia|]. do 2 f_equal. lia.
Qed.

(** One tick inside the text: the character at [index] is processed, the
    index moves by one, the interval is due again one period later. *)
Lemma fire_typing m due txt k c :
  get k txt = Some c →
  fire (typing_state m due txt k)
    = Some (Return (typing_state m due txt (S k))).
Proof.
  intros Hc. pose proof (get_Some_length _ _ _ Hc) as Hk.
  unfold fire, typing_state. simpl earliest. cbv iota beta.
  unfold tick. rewrite (proj2 (Nat.eqb_neq k (String.length txt))) by lia.
  rewrite (js_substring_char _ _ _ Hc), eqb_char_CR.
  rewrite (play_prefix_S _ _ _ _ Hc). unfold process_char.
  set (p := Z.max 0 (typeDelay (config (this m)))).
  set (t0 := Z.max (now m) due).
  assert (Hp : 0 ≤ p) by (unfold p; lia).
  assert (Hn : Z.max (t0 + Z.of_nat k * p) (t0 + (Z.of_nat k + 1) * p)
               = t0 + Z.of_nat (S k) * p) by nia.
  assert (Hd : t0 + Z.of_nat (S k) * p + p = t0 + (Z.of_nat (S k) + 1) * p)
    by nia.
  unfold rearm, advance, set_index, set_timers, on_this, set_this. simpl.
  rewrite Nat.eqb_refl. simpl. rewrite Nat.eqb_refl.
  rewrite Hn, Hd. replace (k + 1)%nat with (S k) by lia.
  by destruct (Ascii.eqb c _).
Qed.

(** The machine [k] ticks into an instruction. *)
Lemma run_typing m id due txt :
  timers m = [Timeout id due txt] →
  ∀ k, (k ≤ String.length txt)%nat →
       run (S k) m = Return (typing_state m due txt k).
Proof.
  intros Ht. induction k as [|k IH]; intros Hk.
  - simpl. by rewrite (fire_timeout _ _ _ _ Ht).
  - destruct (get_Some_lt txt k) as [c Hc]; [lia|].
    rewrite (run_snoc _ _ _ (IH ltac:(lia))).
    by rewrite (fire_typing _ _ _ _ _ Hc).
Qed.

Lemma typing_forced_on cl : "typing" ∈ classList_toggle "typing" true cl.
Proof. unfold classList_toggle. apply elem_of_union_l, elem_of_singleton_2. done. Qed.

Lemma typing_forced_off cl : "typing" ∉ classList_toggle "typing" false cl.
Proof.
  unfold classList_toggle. rewrite elem_of_difference, elem_of_singleton.
  tauto.
Qed.

Lemma hide_cursor_keeps_typing_off cl :
  "typing" ∉ cl → "typing" ∉ classList_add "hide-cursor" cl.
Proof.
  intros H. unfold classList_add. rewrite elem_of_union, elem_of_singleton.
  intros [[=]|?]. done.
Qed.

Lemma tick_char id txt index m c :
  get index txt = Some c →
  tick id txt index m =
    Return
      (on_this
         (fun w => set_innerText (process_char c (innerText (the_element w))) w)
         (set_index id (index + 1) m)).
Proof.
  intros Hc. pose proof (get_Some_length _ _ _ Hc) as Hk.
  unfold tick. rewrite (proj2 (Nat.eqb_neq index (String.length txt))) by lia.
  rewrite (js_substring_char _ _ _ Hc), eqb_char_CR. unfold process_char.
  by destruct (Ascii.eqb c _).
Qed.

Lemma start_element m :
  the_element (this (state_of (start m))) = the_element (this m).
Proof.
  unfold start. destruct (_writes _); [done|]. by destruct (js_index _ _).
Qed.

(** The last run of the closure: the cursor class is forced off, the text
    is left as it is. *)
Lemma tick_finish_element id txt m :
  innerText (the_element (this (state_of (tick id txt (String.length txt) m))))
    = innerText (the_element (this m))
  ∧ "typing" ∉
      classList
        (the_element (this (state_of (tick id txt (String.length txt) m)))).
Proof.
  unfold tick. rewrite Nat.eqb_refl.
  destruct (js_index _ _);
    [simpl; split; [done|apply typing_forced_off]|].
  destruct (loop _).
  - rewrite start_element. simpl. split; [done|apply typing_forced_off].
  - destruct (hideCursorOnEnd _); simpl; (split; [done|]).
    + apply hide_cursor_keeps_typing_off, typing_forced_off.
    + apply typing_forced_off.
Qed.

Lemma fire_typing_last m due txt :
  fire (typing_state m due txt (String.length txt))
    = Some (tick (nextId m) txt (String.length txt)
              (rearm (nextId m)
                 (advance
                    (Z.max (now m) due
                     + (Z.of_nat (String.length txt) + 1)
                       * Z.max 0 (typeDelay (config (this m))))
                    (typing_state m due txt (String.length txt))))).
Proof. reflexivity. Qed.

Lemma prefix_string_repeat_CR n : ∀ k,
  (k ≤ n)%nat → substring 0 k (string_repeat CR n) = string_repeat CR k.
Proof.
  induction n as [|n IH]; intros k Hk.
  - by replace k with 0%nat by lia.
  - change (string_repeat CR (S n))
      with (String (ascii_of_nat 13) (string_repeat CR n)).
    destruct k as [|k]; [done|].
    change (string_repeat CR (S k))
      with (String (ascii_of_nat 13) (string_repeat CR k)).
    simpl. rewrite IH; [done|lia].
Qed.

(** Playing [k] erase markers leaves the first [length v - k] characters. *)
Lemma play_erase k : ∀ v,
  play (string_repeat CR k) v = substring 0 (String.length v - k) v.
Proof.
  induction k as [|k IH]; intros v.
  - simpl. by rewrite Nat.sub_0_r, prefix_all.
  - change (string_repeat CR (S k))
      with (String (ascii_of_nat 13) (string_repeat CR k)).
    simpl. unfold process_char. simpl. rewrite IH.
    unfold js_slice_0_m1. rewrite length_prefix by lia.
    rewrite prefix_prefix by lia. f_equal. lia.
Qed.

(** C1: while one instruction plays, each tick processes exactly one
    character, one configured per-character delay after the previous one:
    a normal character is appended to the visible text, an erase marker
    removes its trailing character instead.  The instruction "Hi" drives
    the visible text through "", "H", "Hi"; an erase of count 2 drives the
    visible text "Hi" through "Hi", "H", "". *)
Theorem one_character_per_tick :
  (∀ (m : Machine) (id : nat) (due : Z) (txt : string) (k : nat) (c : ascii),
     timers m = [Timeout id due txt] →
     get k txt = Some c →
     ∃ mk mk' i t p,
       run (S k) m = Return mk
       ∧ run (S (S k)) m = Return mk'
       ∧ fire mk = Some (Return mk')
       ∧ timers mk = [Interval i t p txt k]
       ∧ timers mk' = [Interval i (t + p) p txt (S k)]
       ∧ p = Z.max 0 (typeDelay (config (this m)))
       ∧ now mk' = now mk + p
       ∧ innerText (the_element (this mk')) =
           if Ascii.eqb c (ascii_of_nat 13)
           then js_slice_0_m1 (innerText (the_element (this mk)))
           else innerText (the_element (this mk)) +:+ String c "")
  ∧ (∀ v a, js_slice_0_m1 (v +:+ String a "") = v)
  ∧ (∃ m, typing_Hi = Return m
          ∧ timed_trace 5 m = [(0, ""); (10, "H"); (20, "Hi"); (30, "Hi")])
  ∧ (∃ m, erasing_Hi = Return m
          ∧ timed_trace 5 m = [(0, "Hi"); (10, "H"); (20, ""); (30, "")]).
Proof.
  split; [|split; [apply slice_snoc|split; by eexists]].
  intros m id due txt k c Ht Hc.
  pose proof (get_Some_length _ _ _ Hc) as Hk.
  exists (typing_state m due txt k), (typing_state m due txt (S k)).
  eexists _, _, _.
  split; [apply (run_typing _ _ _ _ Ht); lia|].
  split; [apply (run_typing _ _ _ _ Ht); lia|].
  split; [apply (fire_typing _ _ _ _ _ Hc)|].
  split; [reflexivity|].
  split; [simpl; do 2 f_equal; lia|].
  split; [reflexivity|].
  split; [simpl; lia|].
  simpl. by rewrite (play_prefix_S _ _ _ _ Hc).
Qed.

Lemma one_character_per_tick_witness :
  ∃ m mk mk' i t p,
    typing_Hi = Return m
    ∧ run 2 m = Return mk
    ∧ run 3 m = Return mk'
    ∧ fire mk = Some (Return mk')
    ∧ timers mk = [Interval i t p "Hi" 1]
    ∧ timers mk' = [Interval i (t + p) p "Hi" 2]
    ∧ p = 10
    ∧ now mk' = now mk + p
    ∧ innerText (the_element (this mk')) =
        innerText (the_element (this mk)) +:+ "i".
Proof.
  destruct (proj1 one_character_per_tick (state_of typing_Hi) 0%nat 0 "Hi"
              1%nat "i"%char eq_refl eq_refl)
    as (mk & mk' & i & t & p & H).
  exists (state_of typing_Hi), mk, mk', i, t, p.
  split; [reflexivity|]. exact H.
Defined.

(** C8, counterexample: while "Hi" is animated the element carries the
    class [typing]: [#toggleCursor(false)] calls
    [classList.toggle('typing', true)]. *)
Lemma typing_class_is_on_while_animating_Hi :
  ∃ m, typing_Hi = Return m ∧ ¬ typing_class_off_while_animating m "Hi".
Proof.
  eexists. split; [reflexivity|].
  intros [H _]. apply (H 0%nat _ ltac:(simpl; lia) eq_refl).
  apply typing_forced_on.
Qed.

(** C8, amended: while the characters of an instruction are animated the
    class [typing] is present on the target element (it is forced on when
    the instruction is entered), and it is removed when the animation of
    the instruction ends. *)
Theorem typing_class_on_while_animating (m : Machine) (id : nat) (due : Z)
    (txt : string) :
  timers m = [Timeout id due txt] →
  (∀ k, (k ≤ String.length txt)%nat →
        ∃ mk, run (S k) m = Return mk
              ∧ "typing" ∈ classList (the_element (this mk)))
  ∧ (∃ mlast r,
       run (S (String.length txt)) m = Return mlast
       ∧ fire mlast = Some r
       ∧ "typing" ∉ classList (the_element (this (state_of r)))).
Proof.
  intros Ht. split.
  - intros k Hk. eexists. split; [by apply (run_typing _ _ _ _ Ht)|].
    apply typing_forced_on.
  - eexists _, _. split; [by apply (run_typing _ _ _ _ Ht)|].
    split; [apply fire_typing_last|]. apply tick_finish_element.
Qed.

Lemma typing_class_on_while_animating_witness :
  ∃ m, typing_Hi = Return m
       ∧ (∀ k, (k ≤ 2)%nat →
               ∃ mk, run (S k) m = Return mk
                     ∧ "typing" ∈ classList (the_element (this mk)))
       ∧ (∃ mlast r,
            run 3 m = Return mlast
            ∧ fire mlast = Some r
            ∧ "typing" ∉ classList (the_element (this (state_of r)))).
Proof.
  eexists. split; [reflexivity|].
  apply (typing_class_on_while_animating (state_of typing_Hi) 0%nat 0 "Hi").
  reflexivity.
Defined.

(** C10: an erase marker processed while the visible text is empty leaves
    it empty and raises nothing; an erase instruction of any count, also
    one larger than the length of the visible text, plays through all its
    ticks without an error, the text losing one character per tick until
    it is empty and staying empty from then on. *)
Theorem erasing_past_empty_is_total (m : Machine) (id : nat) (due : Z)
    (count k : nat) :
  timers m = [Timeout id due (string_repeat CR count)] →
  (k ≤ count)%nat →
  (∀ i txt index m0,
     get index txt = Some (ascii_of_nat 13) →
     innerText (the_element (this m0)) = "" →
     ∃ m1, tick i txt index m0 = Return m1
           ∧ innerText (the_element (this m1)) = "")
  ∧ ∃ mk,
      run (S k) m = Return mk
      ∧ timers mk ≠ []
      ∧ innerText (the_element (this mk)) =
          substring 0 (String.length (innerText (the_element (this m))) - k)
            (innerText (the_element (this m)))
      ∧ ((String.length (innerText (the_element (this m))) ≤ k)%nat →
         innerText (the_element (this mk)) = "").
Proof.
  intros Ht Hk. split.
  - intros i txt index m0 Hc Hv. rewrite (tick_char _ _ _ _ _ Hc).
    eexists. split; [done|]. simpl. by rewrite Hv.
  - eexists. split.
    { apply (run_typing _ _ _ _ Ht). by rewrite length_string_repeat_CR. }
    split; [done|]. simpl.
    rewrite prefix_string_repeat_CR, play_erase by done.
    split; [done|]. intros Hv.
    replace (_ - k)%nat with 0%nat by lia.
    by destruct (innerText _).
Qed.

Lemma erasing_past_empty_is_total_witness :
  ∃ m mk,
    launch (do_calls [Erase 5 0]
              (new_writer (mkConfig (seeded "Hi") 10 false 0 false)))
      = Return m
    ∧ run 6 m = Return mk
    ∧ timers mk ≠ []
    ∧ innerText (the_element (this mk)) = "".
Proof.
  pose (m :=
    state_of (launch (do_calls [Erase 5 0]
                (new_writer (mkConfig (seeded "Hi") 10 false 0 false))))).
  destruct (erasing_past_empty_is_total m 0%nat 0 5%nat 5%nat eq_refl
              (le_n 5))
    as (_ & mk & Hrun & Hts & _ & Hv).
  exists m, mk. split; [reflexivity|]. split; [exact Hrun|].
  split; [exact Hts|]. apply Hv. simpl. lia.
Defined.

(** ** The event loop on the whole queue *)

Lemma earliest_None ts : earliest ts = None ↔ ts = [].
Proof.
  destruct ts as [|t ts]; [done|]. simpl.
  destruct (earliest ts) as [u|]; [|done].
  by destruct (timer_due u <? timer_due t).
Qed.

Lemma fire_None m : fire m = None ↔ timers m = [].
Proof.
  unfold fire. rewrite <- earliest_None.
  by destruct (earliest (timers m)) as [[? ? ?|? ? ? ? ?]|].
Qed.

Lemma js_index_Some {A} (a : list A) (i : Z) :
  0 ≤ i < Z.of_nat (List.length a) → ∃ x, js_index a i = Some x.
Proof.
  intros Hi. unfold js_index. rewrite (proj2 (Z.leb_le 0 i)) by lia.
  apply lookup_lt_is_Some. lia.
Qed.

Lemma js_index_None {A} (a : list A) (i : Z) :
  i < 0 ∨ Z.of_nat (List.length a) ≤ i → js_index a i = None.
Proof.
  intros Hi. unfold js_index. destruct (Z.leb_spec 0 i); [|done].
  apply lookup_ge_None. lia.
Qed.

Lemma same_program_refl w : same_program w w.
Proof. by repeat split. Qed.

Lemma same_program_trans w1 w2 w3 :
  same_program w1 w2 → same_program w2 w3 → same_program w1 w3.
Proof. unfold same_program. intros (-> & -> & ->) (-> & -> & ->). done. Qed.

Lemma loop_ok_same w w' : same_program w w' → loop_ok w → loop_ok w'.
Proof. unfold loop_ok. by intros (-> & -> & ->). Qed.

Lemma looping_same w w' : same_program w w' → looping w → looping w'.
Proof. unfold looping. by intros (-> & -> & ->). Qed.

(** [start] returns whenever the cursor points into the queue, and then a
    timer is pending. *)
Lemma start_returns m :
  0 ≤ _currentWritesIndex (this m)
    < Z.of_nat (List.length (_writes (this m))) →
  ∃ w, js_index (_writes (this m)) (_currentWritesIndex (this m)) = Some w
       ∧ start m =
           Return (setTimeout (text w) (or0 (delay w))
                     (on_this (set_typingStarted true) m)).
Proof.
  intros Hi. destruct (js_index_Some _ _ Hi) as [w Hw]. exists w.
  split; [done|]. unfold start. simpl.
  destruct (_writes (this m)) eqn:E; [simpl in Hi; lia|].
  by rewrite Hw.
Qed.

(** Closes a [same_program] goal between a state and what a callback
    made of it. *)
Ltac program_kept := unfold same_program; simpl; by repeat split.

(** With a loop that restarts inside the queue, or none, no run of the
    closure throws. *)
Lemma tick_returns id txt index m :
  loop_ok (this m) →
  ∃ m', tick id txt index m = Return m' ∧ same_program (this m) (this m').
Proof.
  intros Hok. unfold tick. destruct (index =? String.length txt)%nat.
  - destruct (js_index _ _) as [w|]; [eexists; split; [done|program_kept]|].
    destruct (loop _) eqn:Hl.
    + simpl in Hl. destruct Hok as [Hok|Hok]; [congruence|].
      match goal with |- ∃ _, start ?m0 = _ ∧ _ =>
        destruct (start_returns m0) as (w & _ & ->); [exact Hok|] end.
      eexists; split; [done|program_kept].
    + destruct (hideCursorOnEnd _); (eexists; split; [done|program_kept]).
  - destruct (String.eqb _ _); (eexists; split; [done|program_kept]).
Qed.

Lemma fire_returns m r :
  loop_ok (this m) → fire m = Some r →
  ∃ m', r = Return m' ∧ same_program (this m) (this m').
Proof.
  intros Hok. unfold fire.
  destruct (earliest _) as [[id due txt|id due p txt k]|]; [| |done].
  - intros [= <-]. eexists; split; [done|program_kept].
  - intros [= <-]. by apply (tick_returns id txt k (rearm id (advance due m))).
Qed.

Lemma run_returns n : ∀ m,
  loop_ok (this m) →
  ∃ m', run n m = Return m' ∧ same_program (this m) (this m').
Proof.
  induction n as [|n IH]; intros m Hok.
  - eexists; split; [done|apply same_program_refl].
  - simpl. destruct (fire m) as [r|] eqn:Hf;
      [|eexists; split; [done|apply same_program_refl]].
    destruct (fire_returns _ _ Hok Hf) as (m1 & -> & Hs).
    destruct (IH m1 (loop_ok_same _ _ Hs Hok)) as (m' & -> & Hs').
    eexists; split; [done|]. by eapply same_program_trans.
Qed.

(** With looping on and restarting inside the queue, a turn of the event
    loop always leaves a timer pending. *)
Lemma tick_keeps_pending id txt index m :
  looping (this m) → timers m ≠ [] →
  ∃ m', tick id txt index m = Return m' ∧ timers m' ≠ []
        ∧ same_program (this m) (this m').
Proof.
  intros [Hl Hi] Hts. unfold tick.
  destruct (index =? String.length txt)%nat.
  - destruct (js_index _ _) as [w|].
    { eexists; split; [done|]. split; [|program_kept].
      simpl. by intros [? ?]%app_eq_nil. }
    simpl loop. rewrite Hl.
    match goal with |- ∃ _, start ?m0 = _ ∧ _ =>
      destruct (start_returns m0) as (w & _ & ->); [exact Hi|] end.
    eexists; split; [done|]. split; [|program_kept].
    simpl. by intros [? ?]%app_eq_nil.
  - destruct (String.eqb _ _);
      (eexists; split; [done|]; split; [|program_kept]);
      simpl; by intros ?%map_eq_nil.
Qed.

Lemma fire_keeps_pending m :
  looping (this m) → timers m ≠ [] →
  ∃ m', fire m = Some (Return m') ∧ timers m' ≠ []
        ∧ same_program (this m) (this m').
Proof.
  intros Hl Hts. unfold fire.
  destruct (earliest _) as [[id due txt|id due p txt k]|] eqn:He.
  - eexists; split; [done|]. split; [|program_kept].
    simpl. by intros [? ?]%app_eq_nil.
  - destruct (tick_keeps_pending id txt k (rearm id (advance due m)))
      as (m' & -> & ? & ?); [done|simpl; by intros ?%map_eq_nil|].
    by eexists.
  - by apply earliest_None in He.
Qed.

(** Hence playback never comes to rest. *)
Lemma looping_never_rests n : ∀ m,
  looping (this m) → timers m ≠ [] →
  ∃ m', run n m = Return m' ∧ timers m' ≠ [] ∧ looping (this m').
Proof.
  induction n as [|n IH]; intros m Hl Hts; [by eexists|].
  destruct (fire_keeps_pending m Hl Hts) as (m1 & Hf & Hts1 & Hs).
  simpl. rewrite Hf. apply IH; [|done]. by eapply looping_same.
Qed.

(** The restart itself: when the last instruction finishes under such a
    loop, the cursor is set to [loopFrom] and [start] schedules the
    instruction at that index after its delay. *)
Lemma tick_restarts id txt m :
  looping (this m) →
  js_index (_writes (this m)) (_currentWritesIndex (this m) + 1) = None →
  ∃ w m',
    js_index (_writes (this m)) (loopFrom (config (this m))) = Some w
    ∧ tick id txt (String.length txt) m = Return m'
    ∧ _currentWritesIndex (this m') = loopFrom (config (this m))
    ∧ timers m' =
        filter (fun t => timer_id t ≠ id) (timers m)
        ++ [Timeout (nextId m) (now m + Z.max 0 (or0 (delay w))) (text w)].
Proof.
  intros [Hl Hi] Hn. destruct (js_index_Some _ _ Hi) as [w Hw].
  exists w. unfold tick. rewrite Nat.eqb_refl. simpl js_index. rewrite Hn.
  simpl loop. rewrite Hl.
  match goal with |- ∃ _, _ ∧ start ?m0 = _ ∧ _ =>
    destruct (start_returns m0) as (w' & Hw' & ->); [exact Hi|] end.
  simpl in Hw'. rewrite Hw in Hw'. injection Hw' as <-.
  eexists. split; [done|]. by split.
Qed.

(** The same restart when [loopFrom] is no index of the queue: [start]
    reads [delay] of [undefined], whatever the state otherwise. *)
Lemma tick_throws_past_the_queue id txt m :
  loop (config (this m)) = true →
  _writes (this m) ≠ [] →
  js_index (_writes (this m)) (_currentWritesIndex (this m) + 1) = None →
  loopFrom (config (this m)) < 0
  ∨ Z.of_nat (List.length (_writes (this m))) ≤ loopFrom (config (this m)) →
  ∃ m', tick id txt (String.length txt) m = Throw TypeError m'
        ∧ _currentWritesIndex (this m') = loopFrom (config (this m))
        ∧ timers m' = filter (fun t => timer_id t ≠ id) (timers m).
Proof.
  intros Hl Hws Hn Hf%js_index_None. unfold tick. rewrite Nat.eqb_refl.
  simpl js_index. rewrite Hn. simpl loop. rewrite Hl.
  unfold start. simpl. destruct (_writes (this m)) eqn:E; [done|].
  rewrite Hf. by eexists.
Qed.

(** A queue built over a looping configuration whose [loopFrom] is an
    index of the queue plays forever: [start] returns and every number of
    turns of the event loop returns with a timer still pending. *)
Lemma looping_playback_never_rests (c : EasyWriterConfig) (cs : list call)
    (w : EasyWriter) (n : nat) :
  do_calls cs (new_writer c) = Return w →
  looping w →
  ∃ m m', start (boot w) = Return m
          ∧ run n m = Return m' ∧ timers m' ≠ [].
Proof.
  intros Hw Hl.
  pose proof (do_calls_returns_in_range cs (new_writer c) w eq_refl Hw) as Hcs.
  rewrite do_calls_building in Hw by done. injection Hw as <-.
  destruct Hl as [Hl Hi].
  match goal with |- ∃ _ _, start ?m0 = _ ∧ _ =>
    destruct (start_returns m0) as (w0 & _ & ->); [simpl in *; lia|] end.
  match goal with |- ∃ _ _, Return ?m0 = _ ∧ _ =>
    destruct (looping_never_rests n m0) as (m' & Hr & Hts & _) end.
  - by split.
  - done.
  - by eexists _, _.
Qed.

(** C4, evaluated where it fails: with [loop] on and [loopFrom = 1] over
    a queue of one instruction, [start()] returns, the instruction "a" is
    typed, and the turn of the event loop that finishes it throws a
    [TypeError]: the error is raised inside the interval callback, during
    playback, not at a call of the caller. *)
Theorem playback_throws_when_loopFrom_is_past_the_queue :
  ∃ m m2 m3,
    looping_from_1_of_1 = Return m
    ∧ run 2 m = Return m2
    ∧ innerText (the_element (this m2)) = "a"
    ∧ fire m2 = Some (Throw TypeError m3).
Proof.
  pose (m := state_of looping_from_1_of_1).
  pose (m2 := state_of (run 2 m)).
  exists m, m2, (match fire m2 with Some r => state_of r | None => m2 end).
  do 3 (split; [vm_compute; reflexivity|]). vm_compute. reflexivity.
Qed.

(** C7, evaluated where it fails: with [loop] on and [loopFrom = 2] over
    a queue of two instructions, both instructions are typed, the cursor
    is set to 2 and [start] is entered again, but it throws a [TypeError]
    and schedules nothing: no timer is pending any more and playback is
    at rest for good instead of replaying. *)
Theorem playback_rests_when_loopFrom_is_past_the_queue :
  ∃ m m5 m6,
    looping_from_2_of_2 = Return m
    ∧ run 5 m = Return m5
    ∧ innerText (the_element (this m5)) = "ab"
    ∧ fire m5 = Some (Throw TypeError m6)
    ∧ _currentWritesIndex (this m6) = 2
    ∧ timers m6 = []
    ∧ fire m6 = None
    ∧ ∀ n, run n m6 = Return m6.
Proof.
  pose (m := state_of looping_from_2_of_2).
  pose (m5 := state_of (run 5 m)).
  exists m, m5, (match fire m5 with Some r => state_of r | None => m5 end).
  do 7 (split; [vm_compute; reflexivity|]).
  intros [|n]; vm_compute; reflexivity.
Qed.

(** ** Playback of the whole queue *)

Lemma play_app s : ∀ s' v, play (s +:+ s') v = play s' (play s v).
Proof.
  induction s as [|a s IH]; intros s' v; [done|].
  rewrite append_cons. simpl. apply IH.
Qed.

Lemma run_idle n m : fire m = None → run n m = Return m.
Proof. intros H. destruct n; [done|]. simpl. by rewrite H. Qed.

Lemma run_add a : ∀ b m, run (a + b) m = bind (run a m) (run b).
Proof.
  induction a as [|a IH]; intros b m; [done|].
  simpl. destruct (fire m) as [[m'|e m']|] eqn:Hf.
  - apply IH.
  - done.
  - simpl. by rewrite run_idle.
Qed.

Lemma js_index_nat {A} (a : list A) (n : nat) :
  js_index a (Z.of_nat n) = a !! n.
Proof.
  unfold js_index. rewrite (proj2 (Z.leb_le 0 (Z.of_nat n))) by lia.
  by rewrite Nat2Z.id.
Qed.

Lemma play_queue_snoc q i w :
  play_queue (q ++ [i]) w = after_instruction (text i) (play_queue q w).
Proof. unfold play_queue. by rewrite foldl_app. Qed.

Lemma queue_text_app q q' : queue_text (q ++ q') = queue_text q +:+ queue_text q'.
Proof.
  induction q as [|i q IH]; [done|].
  simpl. rewrite IH. clear IH. generalize (queue_text q) (queue_text q').
  induction (text i) as [|a s IH]; intros s1 s2; [done|].
  rewrite !append_cons. by rewrite IH.
Qed.

Lemma turns_app q q' : turns (q ++ q') = (turns q + turns q')%nat.
Proof. induction q as [|i q IH]; [done|]. simpl. rewrite IH. lia. Qed.

Lemma typing_time_app p q q' :
  typing_time p (q ++ q') = typing_time p q + typing_time p q'.
Proof. induction q as [|i q IH]; [done|]. simpl. rewrite IH. lia. Qed.

Lemma waiting_time_app q q' :
  waiting_time (q ++ q') = waiting_time q + waiting_time q'.
Proof. induction q as [|i q IH]; [done|]. simpl. rewrite IH. lia. Qed.

(** The last tick of an instruction that is followed by another one
    schedules that one after its delay. *)
Lemma fire_last_tick_next m due txt next :
  now m ≤ due →
  js_index (_writes (this m)) (_currentWritesIndex (this m) + 1) = Some next →
  fire (typing_state m due txt (String.length txt)) =
    Some (Return
      (mkMachine (after_instruction txt (this m))
         (due + (Z.of_nat (String.length txt) + 1)
                * Z.max 0 (typeDelay (config (this m))))
         (S (S (nextId m)))
         [Timeout (S (nextId m))
            (due + (Z.of_nat (String.length txt) + 1)
                   * Z.max 0 (typeDelay (config (this m)))
             + Z.max 0 (or0 (delay next)))
            (text next)])).
Proof.
  intros Hnow Hnext. rewrite fire_typing_last. unfold tick.
  rewrite Nat.eqb_refl. simpl js_index. rewrite Hnext.
  unfold typing_state. rewrite prefix_all.
  set (p := Z.max 0 (typeDelay (config (this m)))).
  assert (Hp : 0 ≤ p) by (unfold p; lia).
  unfold setTimeout, clearInterval, remove_timer, rearm, advance, on_this,
    set_this, set_timers. simpl. rewrite Nat.eqb_refl. simpl.
  rewrite filter_cons_False by (simpl; intros H; by apply H).
  rewrite filter_nil. simpl. fold p.
  replace (Z.max (Z.max (now m) due + Z.of_nat (String.length txt) * p)
             (Z.max (now m) due + (Z.of_nat (String.length txt) + 1) * p))
    with (due + (Z.of_nat (String.length txt) + 1) * p) by nia.
  reflexivity.
Qed.

Lemma js_index_next {A} (done : list A) (x : A) (rest : list A) :
  js_index (done ++ x :: rest) (Z.of_nat (List.length done) + 1) = head rest.
Proof.
  replace (Z.of_nat (List.length done) + 1)
    with (Z.of_nat (S (List.length done))) by lia.
  rewrite js_index_nat, lookup_app_r by lia.
  replace (S (List.length done) - List.length done)%nat with 1%nat by lia.
  by destruct rest.
Qed.

Lemma waiting_time_head q last :
  waiting_time (q ++ [last])
  = Z.max 0 (or0 (delay (List.hd last q))) + waiting_time (tl (q ++ [last])).
Proof. by destruct q. Qed.

(** From the timeout of the first of the instructions [q ++ [last]] up
    to the moment before the last tick of [last]: the instructions of [q]
    have been played in order, each begun after its delay. *)
Lemma run_to_last_tick q : ∀ m done last id due,
  _writes (this m) = done ++ q ++ [last] →
  _currentWritesIndex (this m) = Z.of_nat (List.length done) →
  timers m = [Timeout id due (text (List.hd last q))] →
  now m ≤ due →
  ∃ m0 id0 due0,
    run (turns q + S (String.length (text last))) m
      = Return (typing_state m0 due0 (text last) (String.length (text last)))
    ∧ timers m0 = [Timeout id0 due0 (text last)]
    ∧ this m0 = play_queue q (this m)
    ∧ now m0 ≤ due0
    ∧ due0 = due + typing_time (typeDelay (config (this m))) q
             + waiting_time (tl (q ++ [last])).
Proof.
  induction q as [|w q IH]; intros m done last id due Hws Hi Ht Hnow.
  - exists m, id, due. split; [by apply (run_typing _ _ _ _ Ht)|].
    simpl. repeat split; [done|lia|lia].
  - simpl in Ht.
    assert (Hnext : js_index (_writes (this m))
                      (_currentWritesIndex (this m) + 1)
                    = Some (List.hd last q)).
    { rewrite Hws, Hi. simpl. rewrite js_index_next. by destruct q. }
    pose proof (fire_last_tick_next m due (text w) _ Hnow Hnext) as Hf.
    match type of Hf with _ = Some (Return ?x) => set (m1 := x) in * end.
    edestruct (IH m1 (done ++ [w]) last (S (nextId m))) as
      (m0 & id0 & due0 & Hrun & Ht0 & Hw0 & Hn0 & Hd0).
    + simpl. rewrite Hws. by rewrite <- app_assoc.
    + simpl. rewrite Hi, length_app. simpl. lia.
    + reflexivity.
    + simpl. lia.
    + exists m0, id0, due0.
      split; [|split; [done|split; [done|split; [done|]]]].
      * replace (turns (w :: q) + S (String.length (text last)))%nat
          with (S (S (String.length (text w)))
                + (turns q + S (String.length (text last))))%nat
          by (simpl; lia).
        rewrite run_add.
        rewrite (run_snoc _ _ _ (run_typing _ _ _ _ Ht _ (le_n _))).
        rewrite Hf. simpl bind. exact Hrun.
      * rewrite Hd0. simpl typeDelay.
        change ((w :: q) ++ [last]) with (w :: (q ++ [last])).
        simpl tl. simpl typing_time. rewrite (waiting_time_head q last). lia.
Qed.

(** The last tick of the last instruction, [loop] off: nothing is
    scheduled any more. *)
Lemma fire_last_tick_end m due txt :
  now m ≤ due →
  js_index (_writes (this m)) (_currentWritesIndex (this m) + 1) = None →
  loop (config (this m)) = false →
  fire (typing_state m due txt (String.length txt)) =
    Some (Return
      (mkMachine (end_of_queue (after_instruction txt (this m)))
         (due + (Z.of_nat (String.length txt) + 1)
                * Z.max 0 (typeDelay (config (this m))))
         (S (nextId m)) [])).
Proof.
  intros Hnow Hnext Hl. rewrite fire_typing_last. unfold tick.
  rewrite Nat.eqb_refl. simpl js_index. rewrite Hnext.
  simpl loop. rewrite Hl. simpl hideCursorOnEnd.
  unfold typing_state. rewrite prefix_all.
  set (p := Z.max 0 (typeDelay (config (this m)))).
  assert (Hp : 0 ≤ p) by (unfold p; lia).
  unfold end_of_queue, clearInterval, remove_timer, rearm, advance, on_this,
    set_this, set_timers. simpl. rewrite Nat.eqb_refl. simpl.
  rewrite filter_cons_False by (simpl; intros H; by apply H).
  rewrite filter_nil. fold p.
  replace (Z.max (Z.max (now m) due + Z.of_nat (String.length txt) * p)
             (Z.max (now m) due + (Z.of_nat (String.length txt) + 1) * p))
    with (due + (Z.of_nat (String.length txt) + 1) * p) by nia.
  by destruct (hideCursorOnEnd (config (this m))).
Qed.

Lemma start_at m w :
  js_index (_writes (this m)) (_currentWritesIndex (this m)) = Some w →
  start m =
    Return (setTimeout (text w) (or0 (delay w))
              (on_this (set_typingStarted true) m)).
Proof.
  intros Hw. unfold start. simpl.
  destruct (_writes (this m)) as [|w0 ws];
    [unfold js_index in Hw; by destruct (0 <=? _)|].
  by rewrite Hw.
Qed.

(** The last tick of the last instruction, [loop] on and [loopFrom] an
    index of the queue: the instruction at [loopFrom] is scheduled. *)
Lemma fire_last_tick_loop m due txt again :
  now m ≤ due →
  js_index (_writes (this m)) (_currentWritesIndex (this m) + 1) = None →
  loop (config (this m)) = true →
  js_index (_writes (this m)) (loopFrom (config (this m))) = Some again →
  fire (typing_state m due txt (String.length txt)) =
    Some (Return
      (mkMachine
         (set_typingStarted true
            (set_currentWritesIndex (loopFrom (config (this m)))
               (after_instruction txt (this m))))
         (due + (Z.of_nat (String.length txt) + 1)
                * Z.max 0 (typeDelay (config (this m))))
         (S (S (nextId m)))
         [Timeout (S (nextId m))
            (due + (Z.of_nat (String.length txt) + 1)
                   * Z.max 0 (typeDelay (config (this m)))
             + Z.max 0 (or0 (delay again)))
            (text again)])).
Proof.
  intros Hnow Hnext Hl Hagain. rewrite fire_typing_last. unfold tick.
  rewrite Nat.eqb_refl. simpl js_index. rewrite Hnext.
  simpl loop. rewrite Hl. rewrite (start_at _ again) by exact Hagain.
  unfold typing_state. rewrite prefix_all.
  set (p := Z.max 0 (typeDelay (config (this m)))).
  assert (Hp : 0 ≤ p) by (unfold p; lia).
  unfold setTimeout, clearInterval, remove_timer, rearm, advance, on_this,
    set_this, set_timers. simpl. rewrite Nat.eqb_refl. simpl.
  rewrite filter_cons_False by (simpl; intros H; by apply H).
  rewrite filter_nil. simpl. fold p.
  replace (Z.max (Z.max (now m) due + Z.of_nat (String.length txt) * p)
             (Z.max (now m) due + (Z.of_nat (String.length txt) + 1) * p))
    with (due + (Z.of_nat (String.length txt) + 1) * p) by nia.
  reflexivity.
Qed.

Lemma play_queue_innerText q : ∀ w,
  innerText (the_element (play_queue q w))
  = play (queue_text q) (innerText (the_element w)).
Proof.
  induction q as [|i q IH]; intros w; [done|].
  change (play_queue (i :: q) w)
    with (play_queue q (after_instruction (text i) w)).
  rewrite IH. simpl. by rewrite play_app.
Qed.

Lemma play_queue_index q : ∀ w,
  _currentWritesIndex (play_queue q w)
  = _currentWritesIndex w + Z.of_nat (List.length q).
Proof.
  induction q as [|i q IH]; intros w; [simpl; lia|].
  change (play_queue (i :: q) w)
    with (play_queue q (after_instruction (text i) w)).
  rewrite IH. simpl. lia.
Qed.

Lemma playback_keeps_refl w : playback_keeps w w.
Proof. by repeat split. Qed.

Lemma playback_keeps_trans w1 w2 w3 :
  playback_keeps w1 w2 → playback_keeps w2 w3 → playback_keeps w1 w3.
Proof.
  unfold playback_keeps.
  intros (-> & -> & -> & -> & -> & -> & -> & H1) (-> & -> & -> & -> & -> & -> & -> & H2).
  repeat split. auto.
Qed.

Lemma play_queue_keeps q : ∀ w, playback_keeps w (play_queue q w).
Proof.
  induction q as [|i q IH]; intros w; [apply playback_keeps_refl|].
  change (play_queue (i :: q) w)
    with (play_queue q (after_instruction (text i) w)).
  eapply playback_keeps_trans; [|apply IH]. by repeat split.
Qed.

(** Playing instructions leaves [typing] off and touches no other
    class. *)
Lemma play_queue_classes q : ∀ w,
  (q ≠ [] → "typing" ∉ classList (the_element (play_queue q w)))
  ∧ (∀ c, c ≠ "typing" →
          c ∈ classList (the_element (play_queue q w))
          ↔ c ∈ classList (the_element w)).
Proof.
  induction q as [|i q IH] using rev_ind; intros w; [done|].
  rewrite play_queue_snoc. destruct (IH w) as [_ IH2]. split.
  - intros _. apply typing_forced_off.
  - intros c Hc. rewrite <- (IH2 c Hc). simpl.
    unfold classList_toggle. simpl.
    rewrite elem_of_difference, elem_of_union, !elem_of_singleton. tauto.
Qed.

Lemma js_index_past_last {A} (done : list A) (x : A) :
  js_index (done ++ [x]) (Z.of_nat (List.length done) + 1) = None.
Proof. by rewrite js_index_next. Qed.

Lemma start_first_instruction w first rest :
  _writes w = first :: rest → _currentWritesIndex w = 0 →
  start (boot w) =
    Return (mkMachine (set_typingStarted true w) 0 1
              [Timeout 0 (0 + Z.max 0 (or0 (delay first))) (text first)]).
Proof.
  intros Hws Hi. rewrite (start_at _ first); [done|].
  simpl. by rewrite Hws, Hi.
Qed.

(** The whole queue, [loop] off, from a fresh cursor to the end. *)
Lemma run_queue_to_end (w : EasyWriter) :
  _writes w ≠ [] →
  _currentWritesIndex w = 0 →
  loop (config w) = false →
  ∃ m m',
    start (boot w) = Return m
    ∧ run (turns (_writes w)) m = Return m'
    ∧ timers m' = []
    ∧ this m'
      = end_of_queue (play_queue (_writes w) (set_typingStarted true w))
    ∧ now m'
      = waiting_time (_writes w) + typing_time (typeDelay (config w)) (_writes w).
Proof.
  intros Hne Hi Hl.
  destruct (_writes w) as [|first rest] eqn:Hws; [done|]. clear Hne.
  rewrite (start_first_instruction w first rest Hws Hi).
  match goal with |- ∃ _ _, Return ?m0 = _ ∧ _ => set (m := m0) end.
  assert (Hsplit : ∃ q last, first :: rest = q ++ [last]).
  { clear. induction rest as [|x l _] using rev_ind; [by exists [], first|].
    by exists (first :: l), x. }
  destruct Hsplit as (q & last & Hq).
  assert (Hfirst : first = List.hd last q).
  { destruct q as [|x q]; simpl in Hq; by injection Hq as -> _. }
  rewrite Hq in Hws |- *. clear Hq.
  destruct (run_to_last_tick q m [] last 0%nat
              (0 + Z.max 0 (or0 (delay first))))
    as (m0 & id0 & due0 & Hrun & Ht0 & Hw0 & Hn0 & Hd0).
  { simpl. by rewrite Hws. }
  { done. }
  { simpl. by rewrite Hfirst. }
  { simpl. lia. }
  assert (Hkeep : playback_keeps w (this m0)).
  { rewrite Hw0. eapply playback_keeps_trans; [|apply play_queue_keeps].
    by repeat split. }
  destruct Hkeep as (Hk1 & _ & _ & Hk4 & Hk5 & _).
  assert (Hidx : _currentWritesIndex (this m0) = Z.of_nat (List.length q)).
  { rewrite Hw0, play_queue_index. simpl. lia. }
  pose proof (fire_last_tick_end m0 due0 (text last) Hn0) as Hf.
  rewrite Hk1, Hidx, Hws, js_index_past_last, Hk5 in Hf.
  specialize (Hf eq_refl Hl).
  match type of Hf with _ = Some (Return ?x) => exists m, x end.
  split; [done|]. split.
  { rewrite turns_app. simpl turns.
    replace (turns q + (String.length (text last) + 2 + 0))%nat
      with (S (turns q + S (String.length (text last)))) by lia.
    rewrite (run_snoc _ _ _ Hrun). by rewrite Hf. }
  split; [done|]. split.
  { simpl this. by rewrite play_queue_snoc, Hw0. }
  simpl now. rewrite Hd0, Hk4. simpl typeDelay.
  rewrite typing_time_app, (waiting_time_head q last), <- Hfirst.
  simpl typing_time. lia.
Qed.

Lemma end_of_queue_innerText w :
  innerText (the_element (end_of_queue w)) = innerText (the_element w).
Proof. unfold end_of_queue. by destruct (hideCursorOnEnd (config w)). Qed.

(** X1: with [loop] off, playback of a non-empty queue from a fresh
    cursor comes to an end: [start] returns, and after the timeout, one
    tick per character and one last tick for every instruction, no timer
    is pending.  The visible text is then the text the element had, with
    the characters of all instructions processed in queue order; the clock
    stands at the sum of the delays before the instructions plus one
    [typeDelay] for every character and one more per instruction; the
    cursor is past the queue, the class [typing] is off, and the class
    [hide-cursor] is on exactly when [hideCursorOnEnd] is set or the
    element carried it before. *)
Theorem playback_plays_the_queue_to_its_end (w : EasyWriter) :
  _writes w ≠ [] →
  _currentWritesIndex w = 0 →
  loop (config w) = false →
  ∃ m m',
    start (boot w) = Return m
    ∧ run (turns (_writes w)) m = Return m'
    ∧ timers m' = []
    ∧ fire m' = None
    ∧ innerText (the_element (this m'))
      = play (queue_text (_writes w)) (innerText (the_element w))
    ∧ now m'
      = waiting_time (_writes w) + typing_time (typeDelay (config w)) (_writes w)
    ∧ _currentWritesIndex (this m') = Z.of_nat (List.length (_writes w))
    ∧ playback_keeps w (this m')
    ∧ ("typing" ∉ classList (the_element (this m')))
    ∧ ("hide-cursor" ∈ classList (the_element (this m'))
       ↔ (hideCursorOnEnd (config w) = true
          ∨ "hide-cursor" ∈ classList (the_element w))).
Proof.
  intros Hne Hi Hl.
  destruct (run_queue_to_end w Hne Hi Hl) as (m & m' & Hs & Hr & Ht & Hw & Hn).
  exists m, m'. do 3 (split; [done|]). split; [by apply fire_None|].
  rewrite Hw. set (W := play_queue (_writes w) (set_typingStarted true w)).
  assert (HW : playback_keeps w W).
  { eapply playback_keeps_trans; [|apply play_queue_keeps]. by repeat split. }
  destruct (play_queue_classes (_writes w) (set_typingStarted true w))
    as [Hty Hcl]. fold W in Hty, Hcl.
  specialize (Hty Hne). specialize (Hcl "hide-cursor" ltac:(done)).
  split.
  { rewrite end_of_queue_innerText. unfold W. by rewrite play_queue_innerText. }
  split; [done|]. split.
  { unfold end_of_queue. destruct (hideCursorOnEnd (config W)); simpl;
      unfold W; rewrite play_queue_index; simpl; lia. }
  split.
  { eapply playback_keeps_trans; [exact HW|].
    unfold end_of_queue. destruct (hideCursorOnEnd (config W));
      by repeat split. }
  destruct HW as (_ & _ & _ & _ & _ & _ & Hh & _).
  unfold end_of_queue. rewrite Hh.
  destruct (hideCursorOnEnd (config w)); split.
  - by apply hide_cursor_keeps_typing_off.
  - split; [by left|]. intros _. simpl. unfold classList_add.
    apply elem_of_union_l, elem_of_singleton_2. done.
  - done.
  - rewrite Hcl. simpl. split; [by right|]. by intros [|].
Qed.

Lemma playback_plays_the_queue_to_its_end_witness :
  ∃ w m m',
    do_calls [Write "Hi" 100; Erase 1 50; Write "o" 0]
      (new_writer (mkConfig blank 10 false 0 true)) = Return w
    ∧ start (boot w) = Return m
    ∧ run 10 m = Return m'
    ∧ timers m' = []
    ∧ innerText (the_element (this m')) = "Ho"
    ∧ now m' = 220
    ∧ _currentWritesIndex (this m') = 3
    ∧ "hide-cursor" ∈ classList (the_element (this m')).
Proof.
  pose (w := state_of
               (do_calls [Write "Hi" 100; Erase 1 50; Write "o" 0]
                  (new_writer (mkConfig blank 10 false 0 true)))).
  destruct (playback_plays_the_queue_to_its_end w)
    as (m & m' & Hs & Hr & Ht & _ & Hv & Hn & Hi & _ & _ & Hh);
    [discriminate|reflexivity|reflexivity|].
  exists w, m, m'. split; [reflexivity|].
  do 6 (split; [assumption|]). apply Hh. by left.
Defined.

(** X2: with [loop] on and [loopFrom] an index of the queue, playback
    that stands at the start of instruction [i] plays the instructions
    from [i] to the end of the queue onto the visible text and then stands
    at the start of the instruction at [loopFrom], which is due after its
    own delay: the state a further cycle starts from. *)
Theorem loop_replays_from_loopFrom (m : Machine) (i id : nat) (due : Z)
    (cur : WriteInstruction) :
  looping (this m) →
  _writes (this m) !! i = Some cur →
  _currentWritesIndex (this m) = Z.of_nat i →
  timers m = [Timeout id due (text cur)] →
  now m ≤ due →
  ∃ m' again id',
    run (turns (drop i (_writes (this m)))) m = Return m'
    ∧ _writes (this m) !! Z.to_nat (loopFrom (config (this m))) = Some again
    ∧ timers m'
      = [Timeout id' (now m' + Z.max 0 (or0 (delay again))) (text again)]
    ∧ _currentWritesIndex (this m') = loopFrom (config (this m))
    ∧ innerText (the_element (this m'))
      = play (queue_text (drop i (_writes (this m))))
          (innerText (the_element (this m)))
    ∧ now m'
      = due + typing_time (typeDelay (config (this m)))
                (drop i (_writes (this m)))
        + waiting_time (drop (S i) (_writes (this m)))
    ∧ playback_keeps (this m) (this m')
    ∧ looping (this m').
Proof.
  intros [Hl Hlf] Hcur Hi Ht Hnow.
  set (ws := _writes (this m)) in *.
  pose proof (lookup_lt_Some _ _ _ Hcur) as Hlt.
  rewrite (drop_S _ _ _ Hcur).
  assert (Hsplit : ∃ q last, cur :: drop (S i) ws = q ++ [last]).
  { generalize (drop (S i) ws). clear. intros rest.
    induction rest as [|x l _] using rev_ind; [by exists [], cur|].
    by exists (cur :: l), x. }
  destruct Hsplit as (q & last & Hq).
  assert (Hfirst : cur = List.hd last q).
  { destruct q as [|x q]; simpl in Hq; by injection Hq as -> _. }
  assert (Hws : ws = take i ws ++ q ++ [last]).
  { rewrite <- Hq. symmetry. by apply take_drop_middle. }
  assert (Hlen : List.length (take i ws) = i) by (rewrite length_take; lia).
  destruct (run_to_last_tick q m (take i ws) last id due)
    as (m0 & id0 & due0 & Hrun & Ht0 & Hw0 & Hn0 & Hd0).
  { exact Hws. }
  { by rewrite Hlen. }
  { by rewrite <- Hfirst. }
  { done. }
  assert (Hkeep : playback_keeps (this m) (this m0)).
  { rewrite Hw0. apply play_queue_keeps. }
  destruct Hkeep as (Hk1 & Hk2 & Hk3 & Hk4 & Hk5 & Hk6 & Hk7 & Hk8).
  fold ws in Hk1.
  assert (Hidx : _currentWritesIndex (this m0)
                 = Z.of_nat (List.length (take i ws ++ q))).
  { rewrite Hw0, play_queue_index, Hi, length_app, Hlen. lia. }
  destruct (js_index_Some ws (loopFrom (config (this m))) Hlf) as [again Ha].
  pose proof (fire_last_tick_loop m0 due0 (text last) again Hn0) as Hf.
  rewrite Hk1, Hidx, Hk5, Hk6 in Hf.
  rewrite Hws in Hf at 1. rewrite app_assoc, js_index_past_last in Hf.
  specialize (Hf eq_refl Hl Ha).
  match type of Hf with _ = Some (Return ?x) => exists x, again end.
  eexists. split.
  { rewrite Hq, turns_app. simpl turns.
    replace (turns q + (String.length (text last) + 2 + 0))%nat
      with (S (turns q + S (String.length (text last)))) by lia.
    rewrite (run_snoc _ _ _ Hrun). by rewrite Hf. }
  split.
  { revert Ha. unfold js_index. by destruct (0 <=? _). }
  split; [reflexivity|]. split; [reflexivity|].
  assert (Hfinal : after_instruction (text last) (this m0)
                   = play_queue (q ++ [last]) (this m)).
  { by rewrite play_queue_snoc, Hw0. }
  simpl this. rewrite Hfinal.
  assert (HW : playback_keeps (this m) (play_queue (q ++ [last]) (this m)))
    by apply play_queue_keeps.
  split.
  { rewrite Hq. exact (play_queue_innerText (q ++ [last]) (this m)). }
  split.
  { simpl now. rewrite Hd0, Hk4, Hq, typing_time_app. simpl typing_time.
    replace (drop (S i) ws) with (tl (q ++ [last])) by (by rewrite <- Hq).
    lia. }
  destruct HW as (H1 & H2 & H3 & H4 & H5 & H6 & H7 & H8).
  split; [by repeat split|].
  split; simpl; [by rewrite H5|]. fold ws in H1. by rewrite H6, H1.
Qed.

Lemma loop_replays_from_loopFrom_witness :
  ∃ m m' id',
    launch (do_calls [Write "ab" 0; Write "c" 5]
              (new_writer (mkConfig blank 10 true 1 false))) = Return m
    ∧ run 7 m = Return m'
    ∧ timers m' = [Timeout id' (now m' + 5) "c"]
    ∧ _currentWritesIndex (this m') = 1
    ∧ innerText (the_element (this m')) = "abc"
    ∧ now m' = 55.
Proof.
  pose (m := state_of
               (launch (do_calls [Write "ab" 0; Write "c" 5]
                          (new_writer (mkConfig blank 10 true 1 false))))).
  destruct (loop_replays_from_loopFrom m 0%nat 0%nat 0 (mkWrite "ab" 0))
    as (m' & again & id' & Hr & Ha & Ht & Hi & Hv & Hn & _);
    [split; [reflexivity|simpl; lia]|reflexivity|reflexivity|reflexivity
    |simpl; lia|].
  injection Ha as <-.
  exists m, m', id'. split; [reflexivity|]. by repeat split.
Defined.

(** ** What playback leaves alone *)

Lemma start_keeps m : playback_keeps (this m) (this (state_of (start m))).
Proof.
  unfold start. destruct (_writes _) eqn:E; [by repeat split|].
  destruct (js_index _ _); by repeat split.
Qed.

Lemma tick_keeps id txt index m :
  playback_keeps (this m) (this (state_of (tick id txt index m))).
Proof.
  unfold tick. destruct (index =? String.length txt)%nat.
  - destruct (js_index _ _); [by repeat split|].
    destruct (loop _).
    + eapply playback_keeps_trans; [|apply start_keeps]. by repeat split.
    + destruct (hideCursorOnEnd _); by repeat split.
  - destruct (String.eqb _ _); by repeat split.
Qed.

Lemma fire_keeps m r :
  fire m = Some r → playback_keeps (this m) (this (state_of r)).
Proof.
  unfold fire. destruct (earliest _) as [[id due txt|id due p txt k]|];
    [| |done]; intros [= <-].
  - by repeat split.
  - apply (tick_keeps id txt k (rearm id (advance due m))).
Qed.

(** X3: playback never changes the queue, the two counters or the
    settings [typeDelay], [loop], [loopFrom] and [hideCursorOnEnd], and
    never clears the started flag: whatever the number of turns of the
    event loop, and also when a turn throws, only the element and the
    cursor into the queue have moved. *)
Theorem playback_keeps_queue_and_counters (n : nat) (m : Machine) :
  playback_keeps (this m) (this (state_of (run n m))).
Proof.
  revert m. induction n as [|n IH]; intros m; [apply playback_keeps_refl|].
  simpl. destruct (fire m) as [[m'|e m']|] eqn:Hf.
  - eapply playback_keeps_trans; [apply (fire_keeps _ _ Hf)|apply IH].
  - apply (fire_keeps _ _ Hf).
  - apply playback_keeps_refl.
Qed.

Lemma run_keeps_started n : ∀ m,
  _typingStarted (this m) = true →
  _typingStarted (this (state_of (run n m))) = true.
Proof.
  induction n as [|n IH]; intros m H; [done|].
  simpl. destruct (fire m) as [[m'|e m']|] eqn:Hf; [| |done].
  - apply IH. apply (fire_flag _ _ H Hf).
  - apply (fire_flag _ _ H Hf).
Qed.

Lemma toggleCursor_other_class show w c :
  c ≠ "typing" →
  c ∈ classList (the_element (toggleCursor show w))
  ↔ c ∈ classList (the_element w).
Proof.
  intros Hc. simpl. unfold classList_toggle. destruct (negb show).
  - rewrite elem_of_union, elem_of_singleton. tauto.
  - rewrite elem_of_difference, elem_of_singleton. tauto.
Qed.

Lemma tick_other_class id txt index m c :
  c ≠ "typing" →
  (c = "hide-cursor" →
   loop (config (this m)) = true ∨ hideCursorOnEnd (config (this m)) = false) →
  c ∈ classList (the_element (this (state_of (tick id txt index m))))
  ↔ c ∈ classList (the_element (this m)).
Proof.
  intros Hc Hh. unfold tick. destruct (index =? String.length txt)%nat.
  - destruct (js_index _ _);
      [simpl this; apply (toggleCursor_other_class true _ _ Hc)|].
    destruct (loop _) eqn:Hl.
    + rewrite start_element. apply (toggleCursor_other_class true _ _ Hc).
    + destruct (hideCursorOnEnd _) eqn:Hhide;
        [|apply (toggleCursor_other_class true _ _ Hc)].
      simpl in Hl, Hhide. simpl. unfold classList_add, classList_toggle. simpl.
      rewrite elem_of_union, elem_of_difference, !elem_of_singleton.
      split; [intros [->|[? _]]; [|done]|tauto].
      destruct (Hh eq_refl); congruence.
  - by destruct (String.eqb _ _).
Qed.

Lemma fire_other_class m r c :
  c ≠ "typing" →
  (c = "hide-cursor" →
   loop (config (this m)) = true ∨ hideCursorOnEnd (config (this m)) = false) →
  fire m = Some r →
  c ∈ classList (the_element (this (state_of r)))
  ↔ c ∈ classList (the_element (this m)).
Proof.
  intros Hc Hh. unfold fire.
  destruct (earliest _) as [[id due txt|id due p txt k]|];
    [| |done]; intros [= <-].
  - apply (toggleCursor_other_class false _ _ Hc).
  - apply (tick_other_class id txt k (rearm id (advance due m)) c Hc Hh).
Qed.

(** X4: the only presentation classes playback ever adds or removes are
    [typing] and [hide-cursor]; and [hide-cursor] is left as it is
    whenever [loop] is on or [hideCursorOnEnd] is off, so looping takes
    precedence over hiding the cursor. *)
Theorem playback_touches_no_other_class (n : nat) (m : Machine) (c : string) :
  c ≠ "typing" →
  (c = "hide-cursor" →
   loop (config (this m)) = true ∨ hideCursorOnEnd (config (this m)) = false) →
  c ∈ classList (the_element (this (state_of (run n m))))
  ↔ c ∈ classList (the_element (this m)).
Proof.
  intros Hc. revert m. induction n as [|n IH]; intros m Hh; [done|].
  simpl. destruct (fire m) as [[m'|e m']|] eqn:Hf; [| |done].
  - rewrite <- (fire_other_class _ _ c Hc Hh Hf). apply IH.
    destruct (fire_keeps _ _ Hf) as (_ & _ & _ & _ & -> & _ & -> & _).
    exact Hh.
  - apply (fire_other_class _ _ c Hc Hh Hf).
Qed.

Lemma playback_touches_no_other_class_witness :
  ∃ m, launch (do_calls [Write "ab" 0; Write "c" 5]
                 (new_writer (mkConfig blank 10 true 1 true))) = Return m
       ∧ ("hide-cursor" ∈ classList (the_element (this (state_of (run 40 m))))
          ↔ "hide-cursor" ∈ classList (the_element (this m))).
Proof.
  eexists. split; [reflexivity|].
  apply playback_touches_no_other_class; [discriminate|].
  intros _. left. reflexivity.
Defined.

(** ** Erasing what was written *)

Lemma append_assoc s1 : ∀ s2 s3 : string,
  (s1 +:+ s2) +:+ s3 = s1 +:+ (s2 +:+ s3).
Proof.
  induction s1 as [|a s1 IH]; intros s2 s3; [done|].
  rewrite !append_cons. by rewrite IH.
Qed.

Lemma append_empty_r (s : string) : s +:+ "" = s.
Proof. induction s as [|a s IH]; [done|]. rewrite append_cons. by rewrite IH. Qed.

Lemma length_append_string (s1 s2 : string) :
  String.length (s1 +:+ s2) = (String.length s1 + String.length s2)%nat.
Proof.
  induction s1 as [|a s1 IH]; [done|]. rewrite append_cons. simpl. by rewrite IH.
Qed.

Lemma prefix_of_append (s1 s2 : string) :
  substring 0 (String.length s1) (s1 +:+ s2) = s1.
Proof.
  induction s1 as [|a s1 IH]; [by destruct s2|].
  rewrite append_cons. simpl. by rewrite IH.
Qed.

(** A text without erase markers is appended as it is. *)
Lemma play_no_CR txt : ∀ v, no_CR txt = true → play txt v = v +:+ txt.
Proof.
  induction txt as [|a txt IH]; intros v H; [by rewrite append_empty_r|].
  simpl in H. apply andb_true_iff in H as [Ha H]. simpl.
  unfold process_char. destruct (Ascii.eqb a _); [done|].
  rewrite IH by done. by rewrite append_assoc.
Qed.



(** As many erase markers as the text just written has characters bring
    the visible text back. *)
Lemma play_write_then_erase txt v :
  no_CR txt = true →
  play (string_repeat CR (String.length txt)) (play txt v) = v.
Proof.
  intros H. rewrite play_erase, play_no_CR, length_append_string by done.
  replace (String.length v + String.length txt - String.length txt)%nat
    with (String.length v) by lia.
  apply prefix_of_append.
Qed.



(** X5: [write(text)] followed by [eraseLast] is a round trip on the
    visible text: when [text], a string the engine holds, has no erase
    marker, playing the queue
    with the two instructions appended ends, [loop] off, with the visible
    text that playing the queue without them gives; and the balance
    [_charsNum - _eraseNum] is back where it was. *)
Theorem eraseLast_undoes_the_last_write (w : EasyWriter) (txt : string)
    (d d' : Z) :
  _typingStarted w = false →
  _currentWritesIndex w = 0 →
  loop (config w) = false →
  no_CR txt = true →
  js_string txt →
  ∃ w2 m m',
    bind (write txt d w) (eraseLast d') = Return w2
    ∧ _writes w2
      = _writes w
        ++ [mkWrite txt d; mkWrite (string_repeat CR (String.length txt)) d']
    ∧ _charsNum w2 - _eraseNum w2 = _charsNum w - _eraseNum w
    ∧ start (boot w2) = Return m
    ∧ run (turns (_writes w2)) m = Return m'
    ∧ timers m' = []
    ∧ innerText (the_element (this m'))
      = play (queue_text (_writes w)) (innerText (the_element w)).
Proof.
  intros Hs Hi Hl Ht Hjs. unfold js_string in Hjs.
  rewrite write_building by done. simpl bind.
  unfold eraseLast, js_last. simpl _writes. rewrite last_snoc. simpl text.
  rewrite erase_building by (done || lia). simpl. rewrite Nat2Z.id.
  match goal with |- ∃ _ _ _, Return ?x = _ ∧ _ => set (w2 := x) end.
  destruct (run_queue_to_end w2) as (m & m' & Hst & Hr & Htm & Hw & _).
  { unfold w2. simpl. by intros [? ?]%app_eq_nil. }
  { exact Hi. }
  { exact Hl. }
  exists w2, m, m'. split; [done|].
  split; [unfold w2; simpl; by rewrite <- app_assoc|].
  split; [simpl; lia|]. do 3 (split; [done|]).
  rewrite Hw, end_of_queue_innerText, play_queue_innerText.
  unfold w2. simpl _writes. simpl innerText.
  rewrite <- app_assoc, queue_text_app, play_app. simpl queue_text.
  rewrite append_empty_r, play_app. by apply play_write_then_erase.
Qed.

Lemma eraseLast_undoes_the_last_write_witness :
  ∃ w w2 m m',
    do_calls [Write "Hello" 0] (new_writer (plain (seeded "> "))) = Return w
    ∧ bind (write " world" 0 w) (eraseLast 500) = Return w2
    ∧ start (boot w2) = Return m
    ∧ run (turns (_writes w2)) m = Return m'
    ∧ timers m' = []
    ∧ innerText (the_element (this m')) = "> Hello".
Proof.
  pose (w := state_of (do_calls [Write "Hello" 0]
                         (new_writer (plain (seeded "> "))))).
  destruct (eraseLast_undoes_the_last_write w " world" 0 500)
    as (w2 & m & m' & Hw2 & _ & _ & Hs & Hr & Ht & Hv);
    [reflexivity|reflexivity|reflexivity|reflexivity
    |unfold js_string, string_limit; simpl; lia|].
  exists w, w2, m, m'. split; [reflexivity|]. by repeat split.
Defined.



(** ** [start] *)

(** X7: with [loop] off, or with [loopFrom] an index of the queue,
    playback of a freshly built instance never throws: [start] returns
    and so does every number of turns of the event loop, whatever the
    texts, delays and the other settings. *)
Theorem playback_never_throws (w : EasyWriter) (n : nat) :
  loop_ok w →
  _currentWritesIndex w = 0 →
  ∃ m m', start (boot w) = Return m
          ∧ run n m = Return m'
          ∧ _typingStarted (this m') = true.
Proof.
  intros Hok Hi.
  assert (Hs : ∃ m, start (boot w) = Return m ∧ same_program w (this m)
                    ∧ _typingStarted (this m) = true).
  { destruct (_writes w) as [|first rest] eqn:Hws.
    - unfold start. simpl. rewrite Hws. eexists. split; [done|].
      split; [program_kept|done].
    - rewrite (start_first_instruction w first rest Hws Hi).
      eexists. split; [done|]. split; [program_kept|done]. }
  destruct Hs as (m & Hs & Hp & Hst).
  destruct (run_returns n m (loop_ok_same _ _ Hp Hok)) as (m' & Hr & _).
  exists m, m'. split; [done|]. split; [done|].
  pose proof (run_keeps_started n m Hst) as Hk. by rewrite Hr in Hk.
Qed.

Lemma playback_never_throws_witness :
  ∃ w m m',
    do_calls [Write "ab" 0; Erase 5 0; Write "c" (-3)]
      (new_writer (mkConfig blank (-1) true 2 true)) = Return w
    ∧ start (boot w) = Return m
    ∧ run 100 m = Return m'
    ∧ _typingStarted (this m') = true.
Proof.
  pose (w := state_of
               (do_calls [Write "ab" 0; Erase 5 0; Write "c" (-3)]
                  (new_writer (mkConfig blank (-1) true 2 true)))).
  destruct (playback_never_throws w 100) as (m & m' & H);
    [right; simpl; lia|reflexivity|].
  exists w, m, m'. split; [reflexivity|exact H].
Defined.

(** X8: with [loop] on and [loopFrom] an index of the queue, playback of
    a freshly built instance never comes to rest: after every number of
    turns of the event loop a timer is still pending. *)
Theorem looping_playback_always_has_a_timer (w : EasyWriter) (n : nat) :
  looping w →
  _currentWritesIndex w = 0 →
  ∃ m m', start (boot w) = Return m
          ∧ run n m = Return m'
          ∧ timers m' ≠ []
          ∧ fire m' ≠ None.
Proof.
  intros [Hl Hlf] Hi.
  destruct (_writes w) as [|first rest] eqn:Hws; [simpl in Hlf; lia|].
  rewrite (start_first_instruction w first rest Hws Hi).
  match goal with |- ∃ _ _, Return ?x = _ ∧ _ => set (m := x) end.
  destruct (looping_never_rests n m) as (m' & Hr & Ht & _).
  - split; simpl; [done|]. by rewrite Hws.
  - done.
  - exists m, m'. do 3 (split; [done|]). by rewrite fire_None.
Qed.

Lemma looping_playback_always_has_a_timer_witness :
  ∃ w m m',
    do_calls [Write "ab" 0; Erase 2 0]
      (new_writer (mkConfig blank 10 true 0 false)) = Return w
    ∧ start (boot w) = Return m
    ∧ run 1000 m = Return m'
    ∧ timers m' ≠ []
    ∧ fire m' ≠ None.
Proof.
  pose (w := state_of
               (do_calls [Write "ab" 0; Erase 2 0]
                  (new_writer (mkConfig blank 10 true 0 false)))).
  destruct (looping_playback_always_has_a_timer w 1000) as (m & m' & H);
    [split; [reflexivity|simpl; lia]|reflexivity|].
  exists w, m, m'. split; [reflexivity|exact H].
Defined.

(** X9: [start()] on an empty queue only sets the started flag: no timer
    is scheduled, so no turn of the event loop ever does anything, and
    the instance is frozen for good, since every later [write] raises the
    already-started error and [eraseLast] the no-prior-write error. *)
Theorem start_on_an_empty_queue_freezes (w : EasyWriter) (n : nat)
    (txt : string) (d : Z) :
  _writes w = [] →
  ∃ m, start (boot w) = Return m
       ∧ this m = set_typingStarted true w
       ∧ timers m = []
       ∧ run n m = Return m
       ∧ write txt d (this m) = Throw AlreadyStartedError (this m)
       ∧ eraseLast d (this m) = Throw NoPriorWriteError (this m).
Proof.
  intros Hws. unfold start. simpl. rewrite Hws.
  eexists. split; [done|]. split; [done|]. split; [done|].
  split; [by apply run_idle|]. split; [done|].
  unfold eraseLast, js_last. simpl. by rewrite Hws.
Qed.

Lemma start_on_an_empty_queue_freezes_witness :
  ∃ m, start (boot (new_writer (plain (seeded "kept")))) = Return m
       ∧ this m = set_typingStarted true (new_writer (plain (seeded "kept")))
       ∧ timers m = []
       ∧ run 9 m = Return m
       ∧ write "late" 0 (this m) = Throw AlreadyStartedError (this m)
       ∧ eraseLast 0 (this m) = Throw NoPriorWriteError (this m).
Proof.
  apply (start_on_an_empty_queue_freezes
           (new_writer (plain (seeded "kept"))) 9 "late" 0).
  reflexivity.
Defined.

(** X10: [start()] does not look at the started flag: called a second
    time while the cursor points into the queue, it returns again and
    schedules the instruction under the cursor a second time, so that two
    playbacks run side by side on the same element. *)
Theorem start_twice_schedules_twice (m : Machine) (cur : WriteInstruction) :
  js_index (_writes (this m)) (_currentWritesIndex (this m)) = Some cur →
  ∃ m1 m2,
    start m = Return m1
    ∧ start m1 = Return m2
    ∧ timers m2
      = timers m
        ++ [Timeout (nextId m) (now m + Z.max 0 (or0 (delay cur))) (text cur);
            Timeout (S (nextId m)) (now m + Z.max 0 (or0 (delay cur)))
              (text cur)]
    ∧ this m2 = set_typingStarted true (this m).
Proof.
  intros Hcur. rewrite (start_at m cur Hcur).
  eexists _, _. split; [done|].
  rewrite (start_at _ cur) by exact Hcur.
  split; [done|]. simpl. split; [by rewrite <- app_assoc|].
  by destruct (this m).
Qed.

Lemma start_twice_schedules_twice_witness :
  ∃ w m1 m2,
    do_calls [Write "ab" 7] (new_writer (plain blank)) = Return w
    ∧ start (boot w) = Return m1
    ∧ start m1 = Return m2
    ∧ timers m2 = [Timeout 0 7 "ab"; Timeout 1 7 "ab"].
Proof.
  pose (w := state_of (do_calls [Write "ab" 7] (new_writer (plain blank)))).
  destruct (start_twice_schedules_twice (boot w) (mkWrite "ab" 7) eq_refl)
    as (m1 & m2 & H1 & H2 & Ht & _).
  exists w, m1, m2. split; [reflexivity|]. by repeat split.
Defined.

(** ** Failing calls and the timer table *)



Lemma earliest_singleton t : earliest [t] = Some t.
Proof. reflexivity. Qed.

Lemma start_adds_at_most_one m :
  (List.length (timers (state_of (start m))) ≤ S (List.length (timers m)))%nat.
Proof.
  unfold start. destruct (_writes _); [simpl; lia|].
  destruct (js_index _ _); simpl; [rewrite length_app; simpl|]; lia.
Qed.

Lemma fire_one_timer m r :
  (List.length (timers m) ≤ 1)%nat → fire m = Some r →
  (List.length (timers (state_of r)) ≤ 1)%nat.
Proof.
  intros Hlen. unfold fire.
  destruct (timers m) as [|t [|t' ts]] eqn:Ht; [done| |simpl in Hlen; lia].
  rewrite earliest_singleton. destruct t as [id due txt|id due p txt k].
  - intros [= <-]. simpl. rewrite Ht.
    rewrite filter_cons_False by (simpl; intros H; by apply H).
    rewrite filter_nil. simpl. lia.
  - intros [= <-]. unfold tick.
    destruct (k =? String.length txt)%nat.
    + assert (Hcl : timers (clearInterval id
                              (on_this (toggleCursor true)
                                 (rearm id (advance due m)))) = []).
      { simpl. rewrite Ht. simpl. rewrite Nat.eqb_refl.
        rewrite filter_cons_False by (simpl; intros H; by apply H).
        by rewrite filter_nil. }
      destruct (js_index _ _).
      * simpl timers. simpl in Hcl. rewrite Hcl. simpl. lia.
      * destruct (loop _).
        -- etransitivity; [apply start_adds_at_most_one|].
           simpl timers. simpl in Hcl. rewrite Hcl. simpl. lia.
        -- destruct (hideCursorOnEnd _); simpl timers; simpl in Hcl;
             rewrite Hcl; simpl; lia.
    + destruct (String.eqb _ _); simpl; rewrite Ht; simpl; lia.
Qed.

(** X13: playback is strictly sequential: once at most one timer is
    pending, as it is after the one call of [start()] on a fresh
    instance, at most one timer is pending after every number of turns
    of the event loop, so no two callbacks of the instance ever
    overlap. *)
Theorem playback_has_one_timer_at_most (n : nat) (m : Machine) :
  (List.length (timers m) ≤ 1)%nat →
  (List.length (timers (state_of (run n m))) ≤ 1)%nat.
Proof.
  revert m. induction n as [|n IH]; intros m Hlen; [done|].
  simpl. destruct (fire m) as [[m'|e m']|] eqn:Hf; [| |done].
  - apply IH. apply (fire_one_timer _ _ Hlen Hf).
  - apply (fire_one_timer _ _ Hlen Hf).
Qed.

Lemma playback_has_one_timer_at_most_witness :
  ∃ m, launch (do_calls [Write "ab" 0; Erase 1 20; Write "c" 5]
                 (new_writer (mkConfig blank 10 true 1 false))) = Return m
       ∧ (List.length (timers (state_of (run 50 m))) ≤ 1)%nat.
Proof.
  eexists. split; [reflexivity|].
  apply playback_has_one_timer_at_most. simpl. lia.
Defined.

(** X14: with [loop] on and [loopFrom] no index of the queue (negative,
    or the queue length or more), playback of a non-empty queue from a
    fresh cursor types every instruction and then throws: the turn of the
    event loop that finishes the last instruction raises a [TypeError]
    from inside [start], leaves the cursor at [loopFrom], the whole text
    played and no timer pending, so that nothing happens afterwards. *)
Theorem playback_throws_past_the_queue (w : EasyWriter) :
  _writes w ≠ [] →
  _currentWritesIndex w = 0 →
  loop (config w) = true →
  loopFrom (config w) < 0
  ∨ Z.of_nat (List.length (_writes w)) ≤ loopFrom (config w) →
  ∃ m m1 m2,
    start (boot w) = Return m
    ∧ run (pred (turns (_writes w))) m = Return m1
    ∧ fire m1 = Some (Throw TypeError m2)
    ∧ run (turns (_writes w)) m = Throw TypeError m2
    ∧ timers m2 = []
    ∧ fire m2 = None
    ∧ _currentWritesIndex (this m2) = loopFrom (config w)
    ∧ innerText (the_element (this m2))
      = play (queue_text (_writes w)) (innerText (the_element w)).
Proof.
  intros Hne Hi Hl Hlf.
  destruct (_writes w) as [|first rest] eqn:Hws; [done|]. clear Hne.
  rewrite (start_first_instruction w first rest Hws Hi).
  match goal with |- ∃ _ _ _, Return ?m0 = _ ∧ _ => set (m := m0) end.
  assert (Hsplit : ∃ q last, first :: rest = q ++ [last]).
  { clear. induction rest as [|x l _] using rev_ind; [by exists [], first|].
    by exists (first :: l), x. }
  destruct Hsplit as (q & last & Hq).
  assert (Hfirst : first = List.hd last q).
  { destruct q as [|x q]; simpl in Hq; by injection Hq as -> _. }
  rewrite Hq in Hws, Hlf |- *. clear Hq.
  destruct (run_to_last_tick q m [] last 0%nat
              (0 + Z.max 0 (or0 (delay first))))
    as (m0 & id0 & due0 & Hrun & Ht0 & Hw0 & Hn0 & Hd0).
  { simpl. by rewrite Hws. }
  { done. }
  { simpl. by rewrite Hfirst. }
  { simpl. lia. }
  assert (Hkeep : playback_keeps w (this m0)).
  { rewrite Hw0. eapply playback_keeps_trans; [|apply play_queue_keeps].
    by repeat split. }
  destruct Hkeep as (Hk1 & _ & _ & _ & Hk5 & Hk6 & _).
  assert (Hidx : _currentWritesIndex (this m0) = Z.of_nat (List.length q)).
  { rewrite Hw0, play_queue_index. simpl. lia. }
  set (mk := typing_state m0 due0 (text last) (String.length (text last)))
    in *.
  pose proof (fire_typing_last m0 due0 (text last)) as Hf. fold mk in Hf.
  match type of Hf with _ = Some (tick ?i ?t ?k ?x) =>
    destruct (tick_throws_past_the_queue i t x) as (m2 & Hth & Hc & Htm);
    [simpl; by rewrite Hk5
    |simpl; rewrite Hk1, Hws; by intros [? ?]%app_eq_nil
    |simpl; by rewrite Hk1, Hidx, Hws, js_index_past_last
    |simpl; by rewrite Hk1, Hk6, Hws
    |pose proof (tick_finish_element i t x) as [Hv _]]
  end.
  rewrite Hth in Hf, Hv.
  assert (Hp : pred (turns (q ++ [last]))
               = (turns q + S (String.length (text last)))%nat).
  { rewrite turns_app. simpl. lia. }
  assert (Htm2 : timers m2 = []).
  { rewrite Htm. simpl. rewrite Nat.eqb_refl.
    rewrite filter_cons_False by (simpl; intros H; by apply H).
    by rewrite filter_nil. }
  exists m, mk, m2. split; [done|]. split; [by rewrite Hp|].
  split; [done|]. split.
  { replace (turns (q ++ [last])) with (S (pred (turns (q ++ [last]))))
      by (rewrite turns_app; simpl; lia).
    rewrite Hp, (run_snoc _ _ _ Hrun). by rewrite Hf. }
  split; [done|]. split; [by apply fire_None|]. split.
  { rewrite Hc. simpl. by rewrite Hk6. }
  simpl state_of in Hv. rewrite Hv. simpl.
  rewrite prefix_all, Hw0, play_queue_innerText, queue_text_app, play_app.
  simpl. by rewrite append_empty_r.
Qed.

Lemma playback_throws_past_the_queue_witness :
  ∃ w m m2,
    do_calls [Write "ab" 0; Erase 1 0]
      (new_writer (mkConfig blank 10 true (-1) false)) = Return w
    ∧ start (boot w) = Return m
    ∧ run 7 m = Throw TypeError m2
    ∧ timers m2 = []
    ∧ _currentWritesIndex (this m2) = -1
    ∧ innerText (the_element (this m2)) = "a".
Proof.
  pose (w := state_of
               (do_calls [Write "ab" 0; Erase 1 0]
                  (new_writer (mkConfig blank 10 true (-1) false)))).
  destruct (playback_throws_past_the_queue w)
    as (m & m1 & m2 & Hs & _ & _ & Hr & Ht & _ & Hc & Hv);
    [discriminate|reflexivity|reflexivity|left; simpl; lia|].
  exists w, m, m2. split; [reflexivity|]. by repeat split.
Defined.
